(** * persistence-kit: repository contract, criteria filters and relation population

    A shallow embedding of the three repository backends of persistence-kit
    (memory, MongoDB, SQLAlchemy), of the shared range-operator validator and
    of the relation-population engine, followed by the properties of the
    repository specification that they satisfy or violate.

    Part I holds the model, module by module as in the Python package;
    Part II holds the lemmas and the theorems about it. *)

From Stdlib Require Import ZArith Lia Ascii.
From Stdlib Require OrderedTypeEx.
From stdpp Require Import base option list strings gmap sorting.

Open Scope Z_scope.

(** * Part I: the model *)

(** ** Python values and built-in operations *)

(** Hashable scalars that occur as identities, index keys and field
    contents.  Equality is structural on this universe (no [bool] or
    [float], whose cross-type equalities Python identifies with [int]). *)
Inductive atom : Type :=
| ANone
| AInt (z : Z)
| AStr (s : string).

(** The content of an entity field or the payload of a range operator:
    a scalar, or a [list] of scalars. *)
Inductive value : Type :=
| VAtom (a : atom)
| VList (l : list atom).

#[export] Instance atom_eq_dec : EqDecision atom.
Proof. solve_decision. Defined.

#[export] Instance value_eq_dec : EqDecision value.
Proof. solve_decision. Defined.

Definition atom_code (a : atom) : unit + (Z + string) :=
  match a with
  | ANone => inl ()
  | AInt z => inr (inl z)
  | AStr s => inr (inr s)
  end.

Definition atom_decode (c : unit + (Z + string)) : atom :=
  match c with
  | inl _ => ANone
  | inr (inl z) => AInt z
  | inr (inr s) => AStr s
  end.

#[export] Instance atom_countable : Countable atom.
Proof. apply (inj_countable' atom_code atom_decode). by intros []. Defined.

Definition none : value := VAtom ANone.

(** [bool(x)] for scalars: [None], [0] and the empty string are falsy. *)
Definition truthy (a : atom) : bool :=
  match a with
  | ANone => false
  | AInt z => negb (z =? 0)
  | AStr s => negb (String.eqb s "")
  end.

(** Exceptions raised by the modelled code.  [RecursionError] is what the
    interpreter raises when the call depth exceeds its limit. *)
Inductive exn : Type :=
| ValueError (msg : string)
| TypeError
| KeyError (key : string)
| RecursionError.

Inductive result (A : Type) : Type :=
| Ok (a : A)
| Raise (e : exn).
Arguments Ok {A} a.
Arguments Raise {A} e.

#[export] Instance result_ret : MRet result := λ A a, Ok a.

#[export] Instance result_bind : MBind result := λ A B k m,
  match m with
  | Ok a => k a
  | Raise e => Raise e
  end.

#[export] Instance result_fmap : FMap result := λ A B f m,
  match m with
  | Ok a => Ok (f a)
  | Raise e => Raise e
  end.

Module Py.

(** [x == y] *)
Definition eqb (x y : value) : bool := bool_decide (x = y).

(** Three-way comparison behind [<], [<=], [>] and [>=]: integers by
    value, strings lexicographically, anything else is a [TypeError]. *)
Definition atom_compare (a b : atom) : result comparison :=
  match a, b with
  | AInt x, AInt y => Ok (x ?= y)
  | AStr s, AStr t => Ok (String.compare s t)
  | _, _ => Raise TypeError
  end.

(** Lists compare by their first differing position, then by length. *)
Fixpoint list_compare (l1 l2 : list atom) : result comparison :=
  match l1, l2 with
  | [], [] => Ok Eq
  | [], _ :: _ => Ok Lt
  | _ :: _, [] => Ok Gt
  | a :: l1', b :: l2' =>
      if decide (a = b) then list_compare l1' l2' else atom_compare a b
  end.

Definition compare (x y : value) : result comparison :=
  match x, y with
  | VAtom a, VAtom b => atom_compare a b
  | VList l1, VList l2 => list_compare l1 l2
  | _, _ => Raise TypeError
  end.

Definition is_lt (c : comparison) : bool :=
  match c with Lt => true | _ => false end.

Definition is_gt (c : comparison) : bool :=
  match c with Gt => true | _ => false end.

Definition lt (x y : value) : result bool := c ← compare x y; Ok (is_lt c).
Definition gt (x y : value) : result bool := c ← compare x y; Ok (is_gt c).
Definition le (x y : value) : result bool := c ← compare x y; Ok (negb (is_gt c)).
Definition ge (x y : value) : result bool := c ← compare x y; Ok (negb (is_lt c)).

(** [x in l] for a list [l] of scalars. *)
Definition contains (x : value) (l : list atom) : bool :=
  match x with
  | VAtom a => bool_decide (a ∈ l)
  | VList _ => false
  end.

(** [l[lo:hi]]: a negative bound counts from the end, and both bounds are
    clamped to the length of the list. *)
Definition slice_index (n i : Z) : Z :=
  if i <? 0 then Z.max (i + n) 0 else Z.min i n.

Definition slice {A} (lo hi : option Z) (l : list A) : list A :=
  let n := Z.of_nat (length l) in
  let a := from_option (slice_index n) 0 lo in
  let b := from_option (slice_index n) n hi in
  take (Z.to_nat (b - a)) (drop (Z.to_nat a) l).

(** [l.sort(key=key, reverse=reverse)].  The sort is stable and compares
    keys with [<] only; a comparison that raises aborts the sort.  With
    [reverse=True] the list is reversed, sorted, and reversed again, which
    keeps elements with equal keys in their original order. *)
Fixpoint insort {A} (key : A → value) (x : A) (l : list A) : result (list A) :=
  match l with
  | [] => Ok [x]
  | y :: l' =>
      b ← lt (key y) (key x);
      if (b : bool) then (r ← insort key x l'; Ok (y :: r)) else Ok (x :: y :: l')
  end.

Fixpoint sort_asc {A} (key : A → value) (l : list A) : result (list A) :=
  match l with
  | [] => Ok []
  | x :: l' => s ← sort_asc key l'; insort key x s
  end.

Definition sort {A} (key : A → value) (reverse : bool) (l : list A)
    : result (list A) :=
  if reverse then @rev A <$> sort_asc key (@rev A l) else sort_asc key l.

(** [s.split(".", 1)] when ["." in s]. *)
Fixpoint split_dot (s : string) : option (string * string) :=
  match s with
  | EmptyString => None
  | String c s' =>
      if Ascii.eqb c "."%char then Some (EmptyString, s')
      else '(a, b) ← split_dot s'; Some (String c a, b)
  end.

End Py.

(** ** Insertion-ordered dictionaries

    A Python [dict] keeps its keys in insertion order; assigning to a key
    that is present keeps the key's position. *)

Fixpoint dict_get {K V} `{EqDecision K} (k : K) (d : list (K * V)) : option V :=
  match d with
  | [] => None
  | (k', v) :: d' => if decide (k = k') then Some v else dict_get k d'
  end.

(** [d[k] = v] *)
Fixpoint dict_set {K V} `{EqDecision K} (k : K) (v : V) (d : list (K * V))
    : list (K * V) :=
  match d with
  | [] => [(k, v)]
  | (k', v') :: d' =>
      if decide (k = k') then (k, v) :: d' else (k', v') :: dict_set k v d'
  end.

(** [d.pop(k, None)], the dictionary that remains *)
Fixpoint dict_del {K V} `{EqDecision K} (k : K) (d : list (K * V))
    : list (K * V) :=
  match d with
  | [] => []
  | (k', v') :: d' =>
      if decide (k = k') then d' else (k', v') :: dict_del k d'
  end.

Definition dict_keys {K V} (d : list (K * V)) : list K := d.*1.
Definition dict_values {K V} (d : list (K * V)) : list V := d.*2.

(** ** Entities

    An entity is a dataclass instance or a plain [dict]; both carry named
    fields.  A dataclass instance is always truthy, a [dict] is truthy when
    it is not empty. *)

Inductive shape : Type := Dataclass | Dict.

Record entity : Type := Entity {
  e_shape : shape;
  e_fields : list (string * value);
}.

#[export] Instance shape_eq_dec : EqDecision shape.
Proof. solve_decision. Defined.

#[export] Instance entity_eq_dec : EqDecision entity.
Proof. solve_decision. Defined.

Definition entity_truthy (e : entity) : bool :=
  match e_shape e, e_fields e with
  | Dict, [] => false
  | _, _ => true
  end.

(** [getattr(e, "name")] for the identity and index extractors of the
    repository factory ([lambda e: e.id], [attrgetter(v)]) on entities whose
    attribute holds a scalar.  On an entity without the attribute the
    source raises [AttributeError], and on a list it returns a value that
    no dictionary accepts as a key: neither is a scalar, and [attr] is used
    on neither. *)
Definition attr (name : string) (e : entity) : atom :=
  match dict_get name (e_fields e) with
  | Some (VAtom a) => a
  | _ => ANone
  end.

(** ** repository/filter_ops.py *)

Module FilterOps.

(** The condition attached to a field of a criteria mapping: [None] or a
    hashable scalar (equality), a [list] (membership), or a [dict] of range
    operators. *)
Inductive cond : Type :=
| CValue (a : atom)
| CMulti (l : list atom)
| CRange (d : list (string * value)).

Definition _SIMPLE_OPS : list string := ["gte"; "gt"; "lte"; "lt"; "eq"; "ne"].

Definition is_multi_value (c : cond) : bool :=
  match c with CMulti _ => true | _ => false end.

Definition is_range_dict (c : cond) : bool :=
  match c with CRange _ => true | _ => false end.

(** The [for op, v in items] loop of [iter_range_ops]. *)
Fixpoint check_items (items : list (string * value)) : result unit :=
  match items with
  | [] => Ok ()
  | (op, v) :: rest =>
      if String.eqb op "between" then
        match v with
        | VList l =>
            if bool_decide (length l = 2%nat) then check_items rest
            else Raise (ValueError "between expects a list with exactly two values")
        | VAtom _ =>
            Raise (ValueError "between expects a list with exactly two values")
        end
      else if String.eqb op "in" then
        match v with
        | VList _ => check_items rest
        | VAtom _ => Raise (ValueError "in expects a list")
        end
      else if bool_decide (op ∈ _SIMPLE_OPS) then check_items rest
      else Raise (ValueError ("Unsupported operator: " +:+ op))
  end.

Definition iter_range_ops (items : list (string * value))
    : result (list (string * value)) :=
  match items with
  | [] => Ok []
  | _ => _ ← check_items items; Ok items
  end.

(** The vacuity test shared verbatim by the three [list_by_fields]
    implementations: some condition is an empty list, or a range dict
    whose ["in"] entry is the empty list. *)
Definition vacuous (c : cond) : bool :=
  match c with
  | CMulti [] => true
  | CRange d => bool_decide (dict_get "in" d = Some (VList []))
  | _ => false
  end.

End FilterOps.

Export FilterOps.

Definition criteria : Type := list (string * cond).

(** ** repository/memory_repo/memory_repo.py *)

Module Memory.

Definition _get_field_value (e : entity) (field : string) : value :=
  default none (dict_get field (e_fields e)).

(** The [for op, v in ops] loop of [_match_value].  The operators have been
    validated by [iter_range_ops], so a [between] payload is a list of two
    and an [in] payload is a list; the other shapes cannot reach the loop
    and raise what Python raises on them. *)
Fixpoint match_ops (val : value) (ops : list (string * value)) : result bool :=
  match ops with
  | [] => Ok true
  | (op, v) :: rest =>
      if String.eqb op "between" then
        match v with
        | VList [lo; hi] =>
            if bool_decide (val = none) then Ok false else
            below ← Py.lt val (VAtom lo);
            if (below : bool) then Ok false else
            above ← Py.gt val (VAtom hi);
            if (above : bool) then Ok false else match_ops val rest
        | _ => Raise (ValueError "not enough values to unpack")
        end
      else if String.eqb op "gte" then
        if bool_decide (val = none) then Ok false else
        b ← Py.lt val v; if (b : bool) then Ok false else match_ops val rest
      else if String.eqb op "gt" then
        if bool_decide (val = none) then Ok false else
        b ← Py.le val v; if (b : bool) then Ok false else match_ops val rest
      else if String.eqb op "lte" then
        if bool_decide (val = none) then Ok false else
        b ← Py.gt val v; if (b : bool) then Ok false else match_ops val rest
      else if String.eqb op "lt" then
        if bool_decide (val = none) then Ok false else
        b ← Py.ge val v; if (b : bool) then Ok false else match_ops val rest
      else if String.eqb op "in" then
        match v with
        | VList l => if Py.contains val l then match_ops val rest else Ok false
        | VAtom _ => Raise TypeError
        end
      else if String.eqb op "eq" then
        if Py.eqb val v then match_ops val rest else Ok false
      else if String.eqb op "ne" then
        if Py.eqb val v then Ok false else match_ops val rest
      else match_ops val rest
  end.

Definition _match_value (val : value) (c : cond) : result bool :=
  match c with
  | CValue ANone => Ok (bool_decide (val = none))
  | CMulti l => Ok (Py.contains val l)
  | CRange d =>
      ops ← iter_range_ops d;
      match ops with
      | [] => Ok false
      | _ => match_ops val ops
      end
  | CValue a => Ok (Py.eqb val (VAtom a))
  end.

(** The instance attributes set by [__init__]. *)
Record MemoryRepository : Type := {
  _id_getter : entity → atom;
  _items : list (atom * entity);
  _indexes : gmap string (gmap atom atom);
  _extractors : list (string * (entity → atom));
}.

Definition __init__ (id_getter : entity → atom)
    (unique_indexes : list (string * (entity → atom))) : MemoryRepository :=
  {| _id_getter := id_getter;
     _items := [];
     _indexes := list_to_map ((λ p, (p.1, ∅)) <$> unique_indexes);
     _extractors := unique_indexes |}.

(** [for name, ext in self._extractors.items():
       self._indexes[name][ext(entity)] = eid] *)
Fixpoint index_entity (exts : list (string * (entity → atom)))
    (e : entity) (eid : atom) (ix : gmap string (gmap atom atom))
    : result (gmap string (gmap atom atom)) :=
  match exts with
  | [] => Ok ix
  | (name, ext) :: rest =>
      match ix !! name with
      | None => Raise (KeyError name)
      | Some idx => index_entity rest e eid (<[name := <[ext e := eid]> idx]> ix)
      end
  end.

Definition add (self : MemoryRepository) (e : entity) : result MemoryRepository :=
  let eid := _id_getter self e in
  let items := dict_set eid e (_items self) in
  ix ← index_entity (_extractors self) e eid (_indexes self);
  Ok {| _id_getter := _id_getter self; _items := items;
        _indexes := ix; _extractors := _extractors self |}.

Definition get (self : MemoryRepository) (entity_id : atom) : option entity :=
  dict_get entity_id (_items self).

Definition update (self : MemoryRepository) (e : entity) : result MemoryRepository :=
  let eid := _id_getter self e in
  let items := dict_set eid e (_items self) in
  ix ← index_entity (_extractors self) e eid (_indexes self);
  Ok {| _id_getter := _id_getter self; _items := items;
        _indexes := ix; _extractors := _extractors self |}.

(** [for name, ext in self._extractors.items(): ...] of [delete]:
    the entry for the entity's indexed value goes only when it points at
    the identity being deleted. *)
Fixpoint unindex_entity (exts : list (string * (entity → atom)))
    (ent : entity) (entity_id : atom) (ix : gmap string (gmap atom atom))
    : result (gmap string (gmap atom atom)) :=
  match exts with
  | [] => Ok ix
  | (name, ext) :: rest =>
      let val := ext ent in
      match ix !! name with
      | None => Raise (KeyError name)
      | Some idx =>
          let idx' :=
            if bool_decide (default ANone (idx !! val) = entity_id)
            then base.delete val idx else idx in
          unindex_entity rest ent entity_id (<[name := idx']> ix)
      end
  end.

Definition delete (self : MemoryRepository) (entity_id : atom)
    : result MemoryRepository :=
  let ent := dict_get entity_id (_items self) in
  let items := dict_del entity_id (_items self) in
  match ent with
  | None =>
      Ok {| _id_getter := _id_getter self; _items := items;
            _indexes := _indexes self; _extractors := _extractors self |}
  | Some ent =>
      if entity_truthy ent then
        ix ← unindex_entity (_extractors self) ent entity_id (_indexes self);
        Ok {| _id_getter := _id_getter self; _items := items;
              _indexes := ix; _extractors := _extractors self |}
      else
        Ok {| _id_getter := _id_getter self; _items := items;
              _indexes := _indexes self; _extractors := _extractors self |}
  end.

Definition get_by_index (self : MemoryRepository) (index : string) (v : atom)
    : option entity :=
  match _indexes self !! index with
  | None => None
  | Some idx =>
      if bool_decide (idx = ∅) then None else
      match idx !! v with
      | None => None
      | Some eid => if truthy eid then dict_get eid (_items self) else None
      end
  end.

(** [ok] of the inner loop of [list_by_fields]: the conditions are tried in
    order and the first one that fails ends the loop. *)
Fixpoint matches (ent : entity) (crit : criteria) : result bool :=
  match crit with
  | [] => Ok true
  | (k, v) :: rest =>
      ok ← _match_value (_get_field_value ent k) v;
      if (ok : bool) then matches ent rest else Ok false
  end.

(** The [for ent in self._items.values()] loop of [list_by_fields]. *)
Fixpoint select (ents : Datatypes.list entity) (crit : criteria)
    : result (Datatypes.list entity) :=
  match ents with
  | [] => Ok []
  | ent :: rest =>
      ok ← matches ent crit;
      matched ← select rest crit;
      Ok (if (ok : bool) then ent :: matched else matched)
  end.

Definition list (self : MemoryRepository) (offset limit : Z)
    (sort_by : option string) (sort_desc : bool) : result (list entity) :=
  let vals := dict_values (_items self) in
  vals ← match sort_by with
         | Some f => Py.sort (λ e, _get_field_value e f) sort_desc vals
         | None => Ok vals
         end;
  Ok (Py.slice (Some offset) (Some (offset + limit)) vals).

Definition list_by_fields (self : MemoryRepository) (crit : criteria)
    (offset : Z) (limit : option Z) (sort_by : option string)
    (sort_desc : bool) : result (Datatypes.list entity) :=
  match crit with
  | [] => Ok []
  | _ =>
      if existsb vacuous (dict_values crit) then Ok [] else
      matched ← select (dict_values (_items self)) crit;
      matched ← match sort_by with
                | Some f => Py.sort (λ e, _get_field_value e f) sort_desc matched
                | None => Ok matched
                end;
      let matched :=
        if bool_decide (offset = 0) then matched
        else Py.slice (Some offset) None matched in
      let matched :=
        match limit with
        | Some n => Py.slice None (Some n) matched
        | None => matched
        end in
      Ok matched
  end.

End Memory.

(** ** Backend effects

    The document-store and relational repositories talk to a driver.  Their
    methods run in a state monad over the repository's [_inited] flag and
    the log of the calls made on the driver so far; an exception keeps the
    state reached when it was raised.  What the driver answers is a
    parameter of each repository. *)

Record backend (C : Type) : Type := Backend {
  inited : bool;
  calls : list C;
}.
Arguments Backend {C} inited calls.
Arguments inited {C} b.
Arguments calls {C} b.

Definition io (C A : Type) : Type := backend C → result A * backend C.

#[export] Instance io_ret {C} : MRet (io C) := λ A a s, (Ok a, s).

#[export] Instance io_bind {C} : MBind (io C) := λ A B k m s,
  match m s with
  | (Ok a, s') => k a s'
  | (Raise e, s') => (Raise e, s')
  end.

Definition invoke {C} (c : C) : io C unit :=
  λ s, (Ok (), Backend (inited s) (calls s ++ [c])).

Definition lift {C A} (r : result A) : io C A := λ s, (r, s).

Definition set_inited {C} : io C unit :=
  λ s, (Ok (), Backend true (calls s)).

(** ** repository_factory/entity_registry.py *)

Module Registry.

Record Relation : Type := {
  local_field : string;
  target : string;
  by_ : option string;
  many : option bool;
}.

Record EntityConfig : Type := {
  collection : option string;
  relations : option (gmap string Relation);
}.

(** The module-level [ENTITY_CONFIG] dictionary. *)
Definition registry : Type := gmap string EntityConfig.

Definition register_entity (key : string) (config : EntityConfig)
    (reg : registry) : registry := <[key := config]> reg.

Definition get_entity_config (reg : registry) (key : string) : result EntityConfig :=
  match reg !! key with
  | Some cfg => Ok cfg
  | None => Raise (KeyError key)
  end.

Definition get_target_table_name (reg : registry) (target_key : string)
    : result string :=
  cfg ← get_entity_config reg target_key;
  match collection cfg with
  | Some c => Ok c
  | None => Raise (KeyError "collection")
  end.

Fixpoint fk_entries (reg : registry) (rels : list (string * Relation))
    (fk_map : list (string * (string * string)))
    : result (list (string * (string * string))) :=
  match rels with
  | [] => Ok fk_map
  | (_, r) :: rest =>
      target_table ← get_target_table_name reg (target r);
      fk_entries reg rest
        (dict_set (local_field r) (target_table, default "id" (by_ r)) fk_map)
  end.

Definition build_fk_map_from_registry (reg : registry) (entity_key : string)
    : result (list (string * (string * string))) :=
  cfg ← get_entity_config reg entity_key;
  fk_entries reg (map_to_list (default ∅ (relations cfg))) [].

End Registry.

(** ** repository/mongo_repo/mongo_repo.py *)

Module Mongo.

Definition document : Type := list (string * value).

(** The right-hand side of a field of a query document: a plain value, or
    a dictionary of [$]-operators. *)
Inductive qvalue : Type :=
| QVal (a : atom)
| QOps (ops : list (string * value)).

Definition query : Type := list (string * qvalue).

Record cursor : Type := Cursor {
  c_query : query;
  c_sort : option (string * Z);
  c_skip : option Z;
  c_limit : option Z;
}.

(** The methods of the collection that the repository invokes.  [Find]
    only builds a cursor; [ToList] runs it. *)
Inductive call : Type :=
| CreateIndex (field name : string)
| InsertOne (d : document)
| FindOne (q : query)
| Find (q : query)
| ToList (c : cursor) (length : Z)
| ReplaceOne (q : query) (d : document) (upsert : bool)
| DeleteOne (q : query).

Record driver : Type := {
  on_find_one : query → option document;
  on_to_list : cursor → Z → list document;
}.

Record EntityMapper : Type := {
  collection : string;
  id_of : entity → atom;
  to_document : entity → document;
  from_document : document → entity;
  id_field : string;
  unique_fields : list (string * string);
  has_attr : string → bool;
  attr_to_storage : string → string;
}.

Definition _normalize_field (mapper : EntityMapper) (field : string) : string :=
  attr_to_storage mapper field.

(** The loop of [_range_to_mongo] over the validated operators. *)
Fixpoint range_ops (ops : list (string * value)) (q : list (string * value))
    : result (list (string * value)) :=
  match ops with
  | [] => Ok q
  | (op, v) :: rest =>
      if String.eqb op "between" then
        match v with
        | VList (lo :: hi :: _) =>
            range_ops rest (dict_set "$lte" (VAtom hi) (dict_set "$gte" (VAtom lo) q))
        | _ => Raise TypeError
        end
      else if String.eqb op "gte" then range_ops rest (dict_set "$gte" v q)
      else if String.eqb op "gt" then range_ops rest (dict_set "$gt" v q)
      else if String.eqb op "lte" then range_ops rest (dict_set "$lte" v q)
      else if String.eqb op "lt" then range_ops rest (dict_set "$lt" v q)
      else if String.eqb op "in" then range_ops rest (dict_set "$in" v q)
      else if String.eqb op "eq" then range_ops rest (dict_set "$eq" v q)
      else if String.eqb op "ne" then range_ops rest (dict_set "$ne" v q)
      else range_ops rest q
  end.

Definition _range_to_mongo (d : list (string * value))
    : result (list (string * value)) :=
  ops ← iter_range_ops d; range_ops ops [].

(** The [for k, v in criteria.items()] loop of [_find_by_fields]; [None]
    is its early [return []] on a range that translates to nothing. *)
Fixpoint build_query (mapper : EntityMapper) (crit : criteria) (q : query)
    : result (option query) :=
  match crit with
  | [] => Ok (Some q)
  | (k, v) :: rest =>
      let f := _normalize_field mapper k in
      match v with
      | CValue ANone =>
          build_query mapper rest (dict_set f (QOps [("$eq", none)]) q)
      | CMulti l =>
          build_query mapper rest (dict_set f (QOps [("$in", VList l)]) q)
      | CRange d =>
          mongo_range ← _range_to_mongo d;
          match mongo_range with
          | [] => Ok None
          | _ => build_query mapper rest (dict_set f (QOps mongo_range) q)
          end
      | CValue a => build_query mapper rest (dict_set f (QVal a) q)
      end
  end.

(** [cursor.sort(...)] when [sort_by] is given. *)
Definition apply_sort (mapper : EntityMapper) (sort_by : option string)
    (sort_desc : bool) (c : cursor) : result cursor :=
  match sort_by with
  | None => Ok c
  | Some s =>
      if has_attr mapper s then
        Ok (Cursor (c_query c)
              (Some (_normalize_field mapper s, if sort_desc then -1 else 1))
              (c_skip c) (c_limit c))
      else Raise (ValueError ("Invalid sort attribute: " +:+ s))
  end.

Definition _find_by_fields (drv : driver) (mapper : EntityMapper)
    (crit : criteria) (offset : Z) (limit : option Z)
    (sort_by : option string) (sort_desc : bool) : io call (list entity) :=
  match crit with
  | [] => mret []
  | _ =>
      if existsb vacuous (dict_values crit) then mret [] else
      q ← lift (build_query mapper crit []);
      match q with
      | None => mret []
      | Some q =>
          _ ← invoke (Find q);
          c ← lift (apply_sort mapper sort_by sort_desc (Cursor q None None None));
          let c := if bool_decide (offset = 0) then c
                   else Cursor (c_query c) (c_sort c) (Some offset) (c_limit c) in
          let c := match limit with
                   | Some n => Cursor (c_query c) (c_sort c) (c_skip c) (Some n)
                   | None => c
                   end in
          let length := default 0 limit in
          _ ← invoke (ToList c length);
          mret (from_document mapper <$> on_to_list drv c length)
      end
  end.

Record MongoRepository : Type := {
  _drv : driver;
  _mapper : EntityMapper;
}.

Fixpoint create_indexes (fields : list (string * string)) : io call unit :=
  match fields with
  | [] => mret ()
  | (name, field) :: rest =>
      _ ← invoke (CreateIndex field ("uniq_" +:+ name)); create_indexes rest
  end.

Definition init_indexes (self : MongoRepository) : io call unit :=
  create_indexes (unique_fields (_mapper self)).

Definition _ensure_indexes (self : MongoRepository) : io call unit :=
  λ s, if inited s then (Ok (), s)
       else (_ ← init_indexes self; set_inited) s.

Definition id_query (self : MongoRepository) (eid : atom) : query :=
  [(id_field (_mapper self), QVal eid)].

Definition add (self : MongoRepository) (e : entity) : io call unit :=
  _ ← _ensure_indexes self;
  let eid := id_of (_mapper self) e in
  let doc := dict_set (id_field (_mapper self)) (VAtom eid)
               (to_document (_mapper self) e) in
  invoke (InsertOne doc).

Definition get (self : MongoRepository) (entity_id : atom)
    : io call (option entity) :=
  _ ← _ensure_indexes self;
  _ ← invoke (FindOne (id_query self entity_id));
  mret (from_document (_mapper self) <$>
          on_find_one (_drv self) (id_query self entity_id)).

Definition update (self : MongoRepository) (e : entity) : io call unit :=
  _ ← _ensure_indexes self;
  let eid := id_of (_mapper self) e in
  let doc := dict_set (id_field (_mapper self)) (VAtom eid)
               (to_document (_mapper self) e) in
  invoke (ReplaceOne (id_query self eid) doc false).

Definition delete (self : MongoRepository) (entity_id : atom) : io call unit :=
  _ ← _ensure_indexes self;
  invoke (DeleteOne (id_query self entity_id)).

Definition get_by_index (self : MongoRepository) (index : string) (v : atom)
    : io call (option entity) :=
  _ ← _ensure_indexes self;
  match dict_get index (unique_fields (_mapper self)) with
  | None => mret None
  | Some field =>
      if String.eqb field "" then mret None else
      _ ← invoke (FindOne [(field, QVal v)]);
      mret (from_document (_mapper self) <$>
              on_find_one (_drv self) [(field, QVal v)])
  end.

Definition list (self : MongoRepository) (offset limit : Z)
    (sort_by : option string) (sort_desc : bool) : io call (list entity) :=
  _ ← _ensure_indexes self;
  _ ← invoke (Find []);
  c ← lift (apply_sort (_mapper self) sort_by sort_desc (Cursor [] None None None));
  let c := Cursor (c_query c) (c_sort c) (Some offset) (Some limit) in
  _ ← invoke (ToList c limit);
  mret (from_document (_mapper self) <$> on_to_list (_drv self) c limit).

Definition list_by_fields (self : MongoRepository) (crit : criteria)
    (offset : Z) (limit : option Z) (sort_by : option string)
    (sort_desc : bool) : io call (Datatypes.list entity) :=
  _ ← _ensure_indexes self;
  _find_by_fields (_drv self) (_mapper self) crit offset limit sort_by sort_desc.

End Mongo.

(** ** repository/sqlalchemy_repo/sqlalchemy_repo.py *)

Module Sql.

Definition row : Type := list (string * value).

Record Table : Type := {
  t_name : string;
  t_columns : list string;
}.

(** Column predicates built by [_select_by_fields]. *)
Inductive clause : Type :=
| IsNull (col : string)
| In (col : string) (vs : list atom)
| InValue (col : string) (v : value)
| Between (col : string) (lo hi : atom)
| Ge (col : string) (v : value)
| Gt (col : string) (v : value)
| Le (col : string) (v : value)
| Lt (col : string) (v : value)
| Eq (col : string) (v : value)
| Ne (col : string) (v : value).

Record select : Type := Select {
  s_table : string;
  s_where : option (list clause);
  s_order_by : string * bool;
  s_offset : Z;
  s_limit : option Z;
}.

Inductive statement : Type :=
| SelectStmt (s : select)
| InsertStmt (table : string) (r : row)
| UpdateStmt (table : string) (id_col : string) (eid : atom) (r : row)
| DeleteStmt (table : string) (id_col : string) (eid : atom).

(** What is run on the engine: the schema set-up of [init_indexes], or a
    statement inside [engine.begin()]. *)
Inductive call : Type :=
| CreateTableAndIndexes (table : string) (uniques : list (string * string))
    (fk_map : list (string * (string * string)))
| Execute (stmt : statement).

Record driver : Type := {
  on_execute : select → list row;
}.

Record SqlAlchemyEntityMapper : Type := {
  table : Table;
  id_of : entity → atom;
  to_row : entity → row;
  from_row : row → entity;
  id_column : string;
  unique_columns : list (string * string);
  entity_type : string;
  has_attr : string → bool;
  attr_to_storage : string → string;
}.

(** [table.c[name]] *)
Definition column (t : Table) (name : string) : result string :=
  if bool_decide (name ∈ t_columns t) then Ok name else Raise (KeyError name).

(** The [for op, v in ops] loop of [_select_by_fields]. *)
Fixpoint range_clauses (col : string) (ops : list (string * value))
    (clauses : list clause) : result (list clause) :=
  match ops with
  | [] => Ok clauses
  | (op, v) :: rest =>
      if String.eqb op "between" then
        match v with
        | VList (lo :: hi :: _) =>
            range_clauses col rest (clauses ++ [Between col lo hi])
        | _ => Raise TypeError
        end
      else if String.eqb op "gte" then range_clauses col rest (clauses ++ [Ge col v])
      else if String.eqb op "gt" then range_clauses col rest (clauses ++ [Gt col v])
      else if String.eqb op "lte" then range_clauses col rest (clauses ++ [Le col v])
      else if String.eqb op "lt" then range_clauses col rest (clauses ++ [Lt col v])
      else if String.eqb op "in" then range_clauses col rest (clauses ++ [InValue col v])
      else if String.eqb op "eq" then range_clauses col rest (clauses ++ [Eq col v])
      else if String.eqb op "ne" then range_clauses col rest (clauses ++ [Ne col v])
      else range_clauses col rest clauses
  end.

(** The [for field, value in criteria.items()] loop of
    [_select_by_fields]; [None] is its early [return []] on an empty
    range. *)
Fixpoint build_clauses (mapper : SqlAlchemyEntityMapper) (crit : criteria)
    (clauses : list clause) : result (option (list clause)) :=
  match crit with
  | [] => Ok (Some clauses)
  | (field, v) :: rest =>
      if has_attr mapper field then
        let col_name := attr_to_storage mapper field in
        match column (table mapper) col_name with
        | Raise _ =>
            Raise (ValueError ("Column '" +:+ col_name +:+ "' does not exist on table '"
                               +:+ t_name (table mapper) +:+ "'"))
        | Ok col =>
            match v with
            | CValue ANone => build_clauses mapper rest (clauses ++ [IsNull col])
            | CMulti l => build_clauses mapper rest (clauses ++ [In col l])
            | CRange d =>
                ops ← iter_range_ops d;
                match ops with
                | [] => Ok None
                | _ =>
                    clauses ← range_clauses col ops clauses;
                    build_clauses mapper rest clauses
                end
            | CValue a => build_clauses mapper rest (clauses ++ [Eq col (VAtom a)])
            end
        end
      else
        Raise (ValueError ("Field '" +:+ field +:+ "' is not a valid attribute for "
                           +:+ entity_type mapper))
  end.

(** The name of the column to order by. *)
Definition sort_column (mapper : SqlAlchemyEntityMapper) (sort_by : option string)
    : result string :=
  match sort_by with
  | Some s =>
      if has_attr mapper s then Ok (attr_to_storage mapper s)
      else Raise (ValueError ("Invalid sort attribute: " +:+ s))
  | None => Ok (id_column mapper)
  end.

Definition _select_by_fields (drv : driver) (mapper : SqlAlchemyEntityMapper)
    (crit : criteria) (offset : Z) (limit : option Z)
    (sort_by : option string) (sort_desc : bool) : io call (list entity) :=
  match crit with
  | [] => mret []
  | _ =>
      if existsb vacuous (dict_values crit) then mret [] else
      clauses ← lift (build_clauses mapper crit []);
      match clauses with
      | None => mret []
      | Some clauses =>
          sort_col_name ← lift (sort_column mapper sort_by);
          sort_col ← lift (column (table mapper) sort_col_name);
          let stmt := Select (t_name (table mapper)) (Some clauses)
                        (sort_col, sort_desc) offset limit in
          _ ← invoke (Execute (SelectStmt stmt));
          mret (from_row mapper <$> on_execute drv stmt)
      end
  end.

Record SqlAlchemyRepository : Type := {
  _drv : driver;
  _registry : Registry.registry;
  _mapper : SqlAlchemyEntityMapper;
  _entity_key : string;
}.

Definition init_indexes (self : SqlAlchemyRepository) : io call unit :=
  fk_map ← lift (Registry.build_fk_map_from_registry (_registry self) (_entity_key self));
  _ ← invoke (CreateTableAndIndexes (t_name (table (_mapper self)))
                (unique_columns (_mapper self)) fk_map);
  set_inited.

Definition _ensure_indexes (self : SqlAlchemyRepository) : io call unit :=
  λ s, if inited s then (Ok (), s) else init_indexes self s.

Definition add (self : SqlAlchemyRepository) (e : entity) : io call unit :=
  _ ← _ensure_indexes self;
  let r := dict_set (id_column (_mapper self)) (VAtom (id_of (_mapper self) e))
             (to_row (_mapper self) e) in
  invoke (Execute (InsertStmt (t_name (table (_mapper self))) r)).

Definition update (self : SqlAlchemyRepository) (e : entity) : io call unit :=
  _ ← _ensure_indexes self;
  let eid := id_of (_mapper self) e in
  let r := dict_del (id_column (_mapper self)) (to_row (_mapper self) e) in
  match r with
  | [] => mret ()
  | _ =>
      id_col ← lift (column (table (_mapper self)) (id_column (_mapper self)));
      invoke (Execute (UpdateStmt (t_name (table (_mapper self))) id_col eid r))
  end.

Definition delete (self : SqlAlchemyRepository) (entity_id : atom) : io call unit :=
  _ ← _ensure_indexes self;
  id_col ← lift (column (table (_mapper self)) (id_column (_mapper self)));
  invoke (Execute (DeleteStmt (t_name (table (_mapper self))) id_col entity_id)).

Definition list (self : SqlAlchemyRepository) (offset limit : Z)
    (sort_by : option string) (sort_desc : bool) : io call (list entity) :=
  _ ← _ensure_indexes self;
  col_name ← lift (sort_column (_mapper self) sort_by);
  col ← lift (column (table (_mapper self)) col_name);
  let stmt := Select (t_name (table (_mapper self))) None
                (col, sort_desc) offset (Some limit) in
  _ ← invoke (Execute (SelectStmt stmt));
  mret (from_row (_mapper self) <$> on_execute (_drv self) stmt).

Definition list_by_fields (self : SqlAlchemyRepository) (crit : criteria)
    (offset : Z) (limit : option Z) (sort_by : option string)
    (sort_desc : bool) : io call (Datatypes.list entity) :=
  _ ← _ensure_indexes self;
  _select_by_fields (_drv self) (_mapper self) crit offset limit sort_by sort_desc.

End Sql.

(** ** repository_factory/populating_repo.py *)

Module Populating.

Import Registry.

(** The nested dictionaries that population returns, and the values that
    it reads from an item.  [OObj name] is the object that the attribute
    [name] of the item's class holds when it is no datum of the item: a
    bound method, the class, a docstring and the like.  Population only
    asks of it that it is not [None] and not a list, tuple or set, and
    hands it to the target repository. *)
#[warnings="-register-all"]
Inductive out : Type :=
| OVal (v : value)
| OList (l : list out)
| ODict (d : list (string * out))
| OObj (name : string).

(** The repository of a relation's target, as population uses it.  Lookups
    answer [None] for a reference that does not resolve. *)
Record Repository : Type := {
  get : out → option entity;
  get_by_index : string → out → option entity;
}.

Record PopulatingRepository : Type := {
  _key : string;
  _inner : Repository;
  _resolve : string → result Repository;
}.

Definition _to_dict (x : entity) : list (string * out) :=
  prod_map id OVal <$> e_fields x.

(** The [for inc in include] loop: the set of root relation names, and
    for each root the remainders of its dotted includes. *)
Definition split_includes (include : list string)
    : gset string * gmap string (list string) :=
  foldl (λ '(roots, nested) inc,
           match Py.split_dot inc with
           | Some (root, rest) =>
               (roots ∪ {[root]},
                <[root := default [] (nested !! root) ++ [rest]]> nested)
           | None => (roots ∪ {[inc]}, nested)
           end)
        (∅, ∅) include.

(** The attributes that every [dict] object has (CPython 3.11): the keys
    of a [dict] are no attributes of it, its methods are. *)
Definition dict_attributes : list string :=
  ["__class__"; "__class_getitem__"; "__contains__"; "__delattr__";
   "__delitem__"; "__dir__"; "__doc__"; "__eq__"; "__format__"; "__ge__";
   "__getattribute__"; "__getitem__"; "__getstate__"; "__gt__"; "__hash__";
   "__init__"; "__init_subclass__"; "__ior__"; "__iter__"; "__le__";
   "__len__"; "__lt__"; "__ne__"; "__new__"; "__or__"; "__reduce__";
   "__reduce_ex__"; "__repr__"; "__reversed__"; "__ror__"; "__setattr__";
   "__setitem__"; "__sizeof__"; "__str__"; "__subclasshook__"; "clear";
   "copy"; "fromkeys"; "get"; "items"; "keys"; "pop"; "popitem";
   "setdefault"; "update"; "values"].

(** The attributes that an instance of a dataclass has besides its fields
    (CPython 3.11), for a class declared with the decorator's default
    parameters and with no member besides its fields. *)
Definition instance_attributes : list string :=
  ["__annotations__"; "__class__"; "__dataclass_fields__";
   "__dataclass_params__"; "__delattr__"; "__dict__"; "__dir__"; "__doc__";
   "__eq__"; "__format__"; "__ge__"; "__getattribute__"; "__getstate__";
   "__gt__"; "__hash__"; "__init__"; "__init_subclass__"; "__le__"; "__lt__";
   "__match_args__"; "__module__"; "__ne__"; "__new__"; "__reduce__";
   "__reduce_ex__"; "__repr__"; "__setattr__"; "__sizeof__"; "__str__";
   "__subclasshook__"; "__weakref__"].

(** [getattr(item, name)] when [hasattr(item, name)], and [None] when the
    item has no such attribute.  A field of a dataclass instance holds its
    value.  Of the other attributes, [__hash__] is [None] on a [dict] and
    on an instance of a dataclass (which defines [__eq__]), [__weakref__]
    is [None] on an instance nobody refers to weakly, and [__match_args__]
    is the tuple of the field names; the remaining ones hold an object. *)
Definition getattr (item : entity) (name : string) : option out :=
  match e_shape item with
  | Dataclass =>
      match dict_get name (e_fields item) with
      | Some v => Some (OVal v)
      | None =>
          if String.eqb name "__hash__" || String.eqb name "__weakref__"
          then Some (OVal none)
          else if String.eqb name "__match_args__"
          then Some (OVal (VList (AStr <$> dict_keys (e_fields item))))
          else if bool_decide (name ∈ instance_attributes) then Some (OObj name)
          else None
      end
  | Dict =>
      if String.eqb name "__hash__" then Some (OVal none)
      else if bool_decide (name ∈ dict_attributes) then Some (OObj name)
      else None
  end.

(** [getattr(item, lf, None) if hasattr(item, lf) else base.get(lf)] *)
Definition read_local (item : entity) (base : list (string * out)) (lf : string)
    : out :=
  match getattr item lf with
  | Some v => v
  | None => default (OVal none) (dict_get lf base)
  end.

(** [list(val) if isinstance(val, (list, tuple, set)) else [val]] *)
Definition as_seq (val : out) : list out :=
  match val with
  | OVal (VList l) => (λ a, OVal (VAtom a)) <$> l
  | OList l => l
  | _ => [val]
  end.

(** [repo.get(v) if by == "id" else repo.get_by_index(by, v)] *)
Definition lookup_ref (repo : Repository) (by' : string) (v : out)
    : option entity :=
  if String.eqb by' "id" then get repo v else get_by_index repo by' v.

Section body.

(** The recursive call [PopulatingRepository(target, repo,
    self._resolve)._populate(ref, child_includes)]. *)
Variable nested_populate : string → entity → list string → result (list (string * out)).

(** The dictionary appended to [acc], or stored, for a resolved reference. *)
Definition child (target : string) (child_includes : list string) (ref : entity)
    : result out :=
  match child_includes with
  | [] => Ok (ODict (_to_dict ref))
  | _ => ODict <$> nested_populate target ref child_includes
  end.

(** The [for v in seq] loop of the [many] branch. *)
Fixpoint collect (repo : Repository) (by' target : string)
    (child_includes : list string) (seq acc : list out) : result (list out) :=
  match seq with
  | [] => Ok acc
  | v :: rest =>
      match lookup_ref repo by' v with
      | None => collect repo by' target child_includes rest acc
      | Some ref =>
          d ← child target child_includes ref;
          collect repo by' target child_includes rest (acc ++ [d])
      end
  end.

(** The body of the [for f in roots] loop. *)
Definition populate_root (resolve : string → result Repository)
    (rels : gmap string Relation) (nested : gmap string (list string))
    (item : entity) (f : string) (base : list (string * out))
    : result (list (string * out)) :=
  match rels !! f with
  | None => Ok base
  | Some r =>
      let lf := local_field r in
      let by' := default "id" (by_ r) in
      let is_many := default false (many r) in
      let val := read_local item base lf in
      repo ← resolve (target r);
      let child_includes := default [] (nested !! f) in
      match val with
      | OVal (VAtom ANone) =>
          Ok (dict_set f (if is_many then OList [] else OVal none) base)
      | _ =>
          if is_many then
            acc ← collect repo by' (target r) child_includes (as_seq val) [];
            Ok (dict_set f (OList acc) base)
          else
            match lookup_ref repo by' val with
            | None => Ok (dict_set f (OVal none) base)
            | Some ref =>
                d ← child (target r) child_includes ref;
                Ok (dict_set f d base)
            end
      end
  end.

Fixpoint populate_roots (resolve : string → result Repository)
    (rels : gmap string Relation) (nested : gmap string (list string))
    (item : entity) (roots : list string) (base : list (string * out))
    : result (list (string * out)) :=
  match roots with
  | [] => Ok base
  | f :: rest =>
      base ← populate_root resolve rels nested item f base;
      populate_roots resolve rels nested item rest base
  end.

Definition populate_body (reg : registry) (resolve : string → result Repository)
    (key : string) (item : entity) (include : list string)
    : result (list (string * out)) :=
  cfg ← get_entity_config reg key;
  let rels := default ∅ (relations cfg) in
  let base := _to_dict item in
  let '(roots, nested) := split_includes include in
  populate_roots resolve rels nested item (elements roots) base.

End body.

(** [_populate], with the depth of the call stack that is left. *)
Fixpoint _populate (depth : nat) (reg : registry)
    (resolve : string → result Repository)
    (key : string) (item : entity) (include : list string)
    : result (list (string * out)) :=
  match depth with
  | O => Raise RecursionError
  | S depth' =>
      populate_body (_populate depth' reg resolve) reg resolve key item include
  end.

Definition get_with (depth : nat) (reg : registry) (self : PopulatingRepository)
    (entity_id : atom) (include : list string)
    : result (option (list (string * out))) :=
  match get (_inner self) (OVal (VAtom entity_id)) with
  | None => Ok None
  | Some ent =>
      if entity_truthy ent
      then Some <$> _populate depth reg (_resolve self) (_key self) ent include
      else Ok None
  end.

End Populating.

(** ** repository/mongo_repo/mongo_mapper.py and
       repository/sqlalchemy_repo/sqlalchemy_dataclass_mapper.py

    The mappers of the factory, for a dataclass with the given field names.
    A document always carries its identity key, so [from_document] reads it
    with a default where the source would raise on a document without one.
    [to_row] replaces an [Enum] member by its value and a date by its ISO
    string; the values of this model ([None], integers, strings and lists
    of them) are neither, and [to_row] stores them as [asdict] gives
    them. *)

Definition keep_fields (field_names : list string) (d : list (string * value))
    : list (string * value) :=
  filter (λ kv, kv.1 ∈ field_names) d.

Definition DataclassMapper (field_names : list string) (collection_name : string)
    (id_field : string) (unique_fields : list (string * string))
    : Mongo.EntityMapper :=
  {| Mongo.collection := collection_name;
     Mongo.id_of := attr "id";
     Mongo.to_document := λ e, keep_fields field_names (dict_del "id" (e_fields e));
     Mongo.from_document := λ doc,
       Entity Dataclass
         (keep_fields field_names
            (dict_set "id" (default none (dict_get id_field doc))
               (dict_del id_field doc)));
     Mongo.id_field := id_field;
     Mongo.unique_fields := unique_fields;
     Mongo.has_attr := λ name,
       String.eqb name "id" || bool_decide (name ∈ field_names);
     Mongo.attr_to_storage := λ name,
       if String.eqb name "id" then id_field else name |}.

(** The table that [build_table_from_dataclass] makes has one column per
    field of the dataclass. *)
Definition SqlDataclassMapper (entity_name : string) (field_names : list string)
    (table_name : string) (id_column : string)
    (unique_cols : list (string * string)) : Sql.SqlAlchemyEntityMapper :=
  {| Sql.table := {| Sql.t_name := table_name; Sql.t_columns := field_names |};
     Sql.id_of := attr "id";
     Sql.to_row := e_fields;
     Sql.from_row := λ r,
       Entity Dataclass
         (keep_fields field_names
            (match dict_get "id" r, dict_get id_column r with
             | None, Some v => dict_set "id" v r
             | _, _ => r
             end));
     Sql.id_column := id_column;
     Sql.unique_columns := unique_cols;
     Sql.entity_type := entity_name;
     Sql.has_attr := λ name,
       String.eqb name "id" || bool_decide (name ∈ field_names);
     Sql.attr_to_storage := λ name,
       if String.eqb name "id" then id_column else name |}.

(** ** Vocabulary of the properties, and example data *)

(** The value that one pass of the loop over the roots stores under the
    root's key, for the local reference [val] that it read. *)
Definition root_value
    (nested_populate : string → entity → list string
                       → result (list (string * Populating.out)))
    (repo : Populating.Repository) (r : Registry.Relation)
    (child_includes : list string) (val : Populating.out)
    : result Populating.out :=
  let by' := default "id" (Registry.by_ r) in
  let is_many := default false (Registry.many r) in
  match val with
  | Populating.OVal (VAtom ANone) =>
      Ok (if is_many then Populating.OList [] else Populating.OVal none)
  | _ =>
      if is_many then
        Populating.OList <$>
          Populating.collect nested_populate repo by' (Registry.target r)
            child_includes (Populating.as_seq val) []
      else
        match Populating.lookup_ref repo by' val with
        | None => Ok (Populating.OVal none)
        | Some ref =>
            Populating.child nested_populate (Registry.target r) child_includes ref
        end
  end.

(** A registry of posts, tags and users: a post has many tags, through
    [tagIds], and one author, through [authorId]. *)
Definition blog_registry : Registry.registry :=
  Registry.register_entity "post"
    {| Registry.collection := Some "posts";
       Registry.relations := Some
         {[ "tags" := {| Registry.local_field := "tagIds"; Registry.target := "tag";
                         Registry.by_ := None; Registry.many := Some true |};
            "author" := {| Registry.local_field := "authorId";
                           Registry.target := "user";
                           Registry.by_ := None; Registry.many := None |} ]} |}
    (Registry.register_entity "tag"
       {| Registry.collection := Some "tags"; Registry.relations := None |}
       (Registry.register_entity "user"
          {| Registry.collection := Some "users"; Registry.relations := None |}
          ∅)).

Definition tag (id : Z) (label : string) : entity :=
  Entity Dataclass [("id", VAtom (AInt id)); ("label", VAtom (AStr label))].

(** The tag repository holds tags 1 and 3, and no tag 2; the user
    repository is empty. *)
Definition tag_repo : Populating.Repository :=
  {| Populating.get := λ v,
       match v with
       | Populating.OVal (VAtom (AInt 1)) => Some (tag 1 "rocq")
       | Populating.OVal (VAtom (AInt 3)) => Some (tag 3 "python")
       | _ => None
       end;
     Populating.get_by_index := λ _ _, None |}.

Definition user_repo : Populating.Repository :=
  {| Populating.get := λ _, None; Populating.get_by_index := λ _ _, None |}.

Definition blog_resolve (key : string) : result Populating.Repository :=
  if String.eqb key "tag" then Ok tag_repo
  else if String.eqb key "user" then Ok user_repo
  else Raise (KeyError key).

Definition post : entity :=
  Entity Dataclass
    [("id", VAtom (AInt 10)); ("tagIds", VList [AInt 1; AInt 2; AInt 3]);
     ("authorId", VAtom (AInt 99))].

(** The sort keys that Python can compare with one another: all integers,
    or all strings. *)
Inductive kind : Type := KInt | KStr.

Definition has_kind (k : kind) (v : value) : Prop :=
  match k, v with
  | KInt, VAtom (AInt _) => True
  | KStr, VAtom (AStr _) => True
  | _, _ => False
  end.

(** [a] is before [b] in the order of their keys: [key a <= key b]. *)
Definition key_le {A} (k : kind) (key : A → value) : relation A :=
  λ a b, has_kind k (key a) ∧ has_kind k (key b) ∧ Py.le (key a) (key b) = Ok true.

(** No later element has a smaller key. *)
Definition non_decreasing {A} (key : A → value) (l : list A) : Prop :=
  StronglySorted (λ a b, Py.le (key a) (key b) = Ok true) l.

(** No later element has a greater key. *)
Definition non_increasing {A} (key : A → value) (l : list A) : Prop :=
  StronglySorted (λ a b, Py.ge (key a) (key b) = Ok true) l.

(** The elements of [l'] that have a given key are those of [l], in the
    order they have in [l]. *)
Definition keeps_order_of_equal_keys {A} (key : A → value) (l l' : list A)
    : Prop :=
  ∀ v, filter (λ a, key a = v) l' = filter (λ a, key a = v) l.

(** The call did not exhaust the call stack. *)
Definition within_depth {A} (m : result A) : Prop := m ≠ Raise RecursionError.

(** The operator keys that [iter_range_ops] accepts. *)
Definition range_operators : list string :=
  ["gte"; "gt"; "lte"; "lt"; "eq"; "ne"; "in"; "between"].

(** A range entry that the specification calls malformed: a [between]
    whose value is not a list of exactly two elements, an [in] whose value
    is not a list, or an operator key outside [range_operators]. *)
Definition malformed (op : string) (v : value) : Prop :=
  (op = "between" ∧ ∀ lo hi, v ≠ VList [lo; hi]) ∨
  (op = "in" ∧ ∀ l, v ≠ VList l) ∨
  op ∉ range_operators.


(** The entity type [Order{id, customerId, total}] of the specification's
    scenarios, with its mappers. *)
Definition order_fields : list string := ["id"; "customerId"; "total"].

Definition order (id customer total : Z) : entity :=
  Entity Dataclass [("id", VAtom (AInt id)); ("customerId", VAtom (AInt customer));
                    ("total", VAtom (AInt total))].


Definition orders_sql : Sql.SqlAlchemyEntityMapper :=
  SqlDataclassMapper "Order" order_fields "orders" "id" [].

(** Drivers that find nothing. *)
Definition empty_mongo : Mongo.driver :=
  {| Mongo.on_find_one := λ _, None; Mongo.on_to_list := λ _ _, [] |}.

Definition empty_sql : Sql.driver := {| Sql.on_execute := λ _, [] |}.

(** A memory repository holding the five orders of the specification's
    range scenario, with totals 5, 10, 15, 20 and 25. *)
Definition orders_store : Memory.MemoryRepository :=
  {| Memory._id_getter := attr "id";
     Memory._items :=
       [(AInt 1, order 1 42 5); (AInt 2, order 2 42 10); (AInt 3, order 3 43 15);
        (AInt 4, order 4 43 20); (AInt 5, order 5 44 25)];
     Memory._indexes := ∅;
     Memory._extractors := [] |}.


(** Two orders with the same total. *)
Definition tied_orders : Memory.MemoryRepository :=
  {| Memory._id_getter := attr "id";
     Memory._items := [(AInt 1, order 1 42 10); (AInt 2, order 2 43 10)];
     Memory._indexes := ∅;
     Memory._extractors := [] |}.

(** Two orders, one of which has no total yet. *)
Definition pending_orders : Memory.MemoryRepository :=
  {| Memory._id_getter := attr "id";
     Memory._items :=
       [(AInt 1, order 1 42 10);
        (AInt 2, Entity Dataclass [("id", VAtom (AInt 2));
                                   ("customerId", VAtom (AInt 43));
                                   ("total", VAtom ANone)])];
     Memory._indexes := ∅;
     Memory._extractors := [] |}.


Definition orders_sql_repo : Sql.SqlAlchemyRepository :=
  {| Sql._drv := empty_sql; Sql._registry := ∅;
     Sql._mapper := orders_sql; Sql._entity_key := "order" |}.


(** The shape shared by the index loops of [add], [update] and [delete]:
    every extractor's index is replaced by [g ext idx]. *)
Fixpoint update_each (g : (entity → atom) → gmap atom atom → gmap atom atom)
    (exts : list (string * (entity → atom))) (ix : gmap string (gmap atom atom))
    : result (gmap string (gmap atom atom)) :=
  match exts with
  | [] => Ok ix
  | (name, ext) :: rest =>
      match ix !! name with
      | None => Raise (KeyError name)
      | Some idx => update_each g rest (<[name := g ext idx]> ix)
      end
  end.

(** What [__init__] establishes and every operation keeps: the keys of the
    dictionaries [_items] and [_extractors] are distinct, and each
    extractor has its index dictionary. *)
Definition wf (self : Memory.MemoryRepository) : Prop :=
  NoDup (dict_keys (Memory._items self)) ∧
  NoDup (dict_keys (Memory._extractors self)) ∧
  ∀ name, name ∈ dict_keys (Memory._extractors self) →
          is_Some (Memory._indexes self !! name).

(** The operations that change a repository. *)
Inductive op : Type :=
| Add (e : entity)
| Update (e : entity)
| Delete (entity_id : atom).

Definition run_op (self : Memory.MemoryRepository) (o : op)
    : result Memory.MemoryRepository :=
  match o with
  | Add e => Memory.add self e
  | Update e => Memory.update self e
  | Delete i => Memory.delete self i
  end.

Fixpoint run_ops (self : Memory.MemoryRepository) (os : list op)
    : result Memory.MemoryRepository :=
  match os with
  | [] => Ok self
  | o :: os' => self' ← run_op self o; run_ops self' os'
  end.

(** Entities are built as dataclass instances in the examples. *)
Definition obj (fields : list (string * value)) : entity :=
  Entity Dataclass fields.

Definition int (z : Z) : value := VAtom (AInt z).
Definition str (s : string) : value := VAtom (AStr s).

(** A memory repository as the factory builds it: identity [e.id], no
    unique index. *)
Definition plain_repo : Memory.MemoryRepository :=
  Memory.__init__ (attr "id") [].

(** A memory repository of users with a unique index on [email]. *)
Definition users_repo : Memory.MemoryRepository :=
  Memory.__init__ (attr "id") [("email", attr "email")].

Definition user (id : Z) (email : string) : entity :=
  obj [("id", int id); ("email", str email)].


(** Every entity is stored under the identity that [_id_getter] gives
    it. *)
Definition stored_under_identity (self : Memory.MemoryRepository) : Prop :=
  ∀ i e, (i, e) ∈ Memory._items self → Memory._id_getter self e = i.

(** Only the names of the extractors have an index dictionary. *)
Definition indexes_named (self : Memory.MemoryRepository) : Prop :=
  ∀ name, is_Some (Memory._indexes self !! name) →
          name ∈ dict_keys (Memory._extractors self).

#[export] Instance exn_eq_dec : EqDecision exn.
Proof. solve_decision. Defined.

#[export] Instance result_eq_dec {A} `{EqDecision A} : EqDecision (result A).
Proof. solve_decision. Defined.

(** The range operators that compare by order. *)
Definition ordering_operators : list string :=
  ["gte"; "gt"; "lte"; "lt"; "between"].

(** The [create_index] calls of [init_indexes], one per unique field. *)
Definition index_calls (self : Mongo.MongoRepository) : list Mongo.call :=
  (λ p, Mongo.CreateIndex p.2 ("uniq_" +:+ p.1)) <$>
    Mongo.unique_fields (Mongo._mapper self).

(** The document that [add] and [update] send for an entity. *)
Definition stored_document (m : Mongo.EntityMapper) (e : entity) : Mongo.document :=
  dict_set (Mongo.id_field m) (VAtom (Mongo.id_of m e)) (Mongo.to_document m e).

(** The row that [add] inserts for an entity. *)
Definition stored_row (m : Sql.SqlAlchemyEntityMapper) (e : entity) : Sql.row :=
  dict_set (Sql.id_column m) (VAtom (Sql.id_of m e)) (Sql.to_row m e).





(** A document-store repository of users with a unique index on [email]. *)
Definition users_mongo_repo : Mongo.MongoRepository :=
  {| Mongo._drv := empty_mongo;
     Mongo._mapper := DataclassMapper ["id"; "email"] "users" "_id"
                        [("email", "email")] |}.

(** The entity has the attribute values of another, whatever the order in
    which the attributes are held. *)
Definition same_attributes (e e' : entity) : Prop :=
  ∀ name, Memory._get_field_value e' name = Memory._get_field_value e name.

(** The target of every relation of a registered entity is registered
    too, and [resolve] gives its repository. *)
Definition targets_known (reg : Registry.registry)
    (resolve : string → result Populating.Repository) : Prop :=
  ∀ key cfg f r,
    reg !! key = Some cfg →
    default ∅ (Registry.relations cfg) !! f = Some r →
    is_Some (reg !! Registry.target r) ∧
    ∃ repo, resolve (Registry.target r) = Ok repo.

(** The call returns a value: it raises nothing. *)
Definition returns {A} (m : result A) : Prop := ∃ a, m = Ok a.


(** A post whose references are absent. *)
Definition draft : entity :=
  Entity Dataclass
    [("id", VAtom (AInt 11)); ("tagIds", VAtom ANone); ("authorId", VAtom ANone)].

(** * Part II: properties *)

(** Unfolds the monadic plumbing of [io] and [result]. *)
Ltac unfold_io :=
  unfold mbind, mret, fmap, io_bind, io_ret, result_bind, result_ret,
    result_fmap, lift, invoke, set_inited in *.

(** ** Dictionaries *)

Section dict_facts.
Context {K V : Type} `{EqDecision K}.
Implicit Types (k : K) (v : V) (d : list (K * V)).

Lemma dict_get_set_eq k v d : dict_get k (dict_set k v d) = Some v.
Proof.
  induction d as [|[k' v'] d IH]; simpl; repeat (case_decide; simpl);
    congruence.
Qed.

Lemma dict_get_set_ne k k' v d :
  k ≠ k' → dict_get k' (dict_set k v d) = dict_get k' d.
Proof.
  intros Hne. induction d as [|[k0 v0] d IH]; simpl;
    repeat (case_decide; simpl); congruence.
Qed.

Lemma dict_set_length_None k v d :
  dict_get k d = None → length (dict_set k v d) = S (length d).
Proof.
  induction d as [|[k0 v0] d IH]; simpl; [done|].
  case_decide; [done|]. intros Hd. simpl. by rewrite IH.
Qed.

Lemma dict_set_length_Some k v d :
  is_Some (dict_get k d) → length (dict_set k v d) = length d.
Proof.
  induction d as [|[k0 v0] d IH]; simpl; [by intros [? ?]|].
  case_decide; [done|]. intros Hd. simpl. by rewrite IH.
Qed.

Lemma dict_get_not_in_keys k d : k ∉ dict_keys d → dict_get k d = None.
Proof.
  unfold dict_keys. induction d as [|[k1 v1] d IH]; csimpl; [done|].
  rewrite not_elem_of_cons. intros [Hk Hd].
  case_decide; [congruence|]. by apply IH.
Qed.

Lemma dict_get_in_keys k d : k ∈ dict_keys d → is_Some (dict_get k d).
Proof.
  unfold dict_keys. induction d as [|[k1 v1] d IH]; csimpl.
  - intros Hk. by apply elem_of_nil in Hk.
  - rewrite elem_of_cons. intros [->|Hk].
    + case_decide; [eauto|congruence].
    + case_decide; [eauto|]. by apply IH.
Qed.

Lemma dict_get_Some_elem k v d : dict_get k d = Some v → (k, v) ∈ d.
Proof.
  induction d as [|[k0 v0] d IH]; simpl; [done|].
  case_decide; subst.
  - intros [= ->]. apply elem_of_cons; by left.
  - intros Hd. apply elem_of_cons; right; by apply IH.
Qed.

Lemma dict_get_del_ne k k' d :
  k ≠ k' → dict_get k' (dict_del k d) = dict_get k' d.
Proof.
  intros Hne. induction d as [|[k0 v0] d IH]; simpl; [done|].
  repeat (case_decide; simpl); congruence.
Qed.

Lemma dict_get_del_eq k d :
  NoDup (dict_keys d) → dict_get k (dict_del k d) = None.
Proof.
  unfold dict_keys. induction d as [|[k0 v0] d IH]; csimpl; [done|].
  rewrite NoDup_cons. intros [Hk0 Hnd]. case_decide; subst.
  - by apply dict_get_not_in_keys.
  - simpl. case_decide; [done|]. by apply IH.
Qed.

Lemma dict_del_absent k d : dict_get k d = None → dict_del k d = d.
Proof.
  induction d as [|[k0 v0] d IH]; simpl; [done|].
  case_decide; [done|]. intros Hd. by rewrite IH.
Qed.

Lemma dict_get_elem_NoDup k v d :
  NoDup (dict_keys d) → (k, v) ∈ d → dict_get k d = Some v.
Proof.
  unfold dict_keys. induction d as [|[k0 v0] d IH]; csimpl.
  - intros _ Hin. by apply elem_of_nil in Hin.
  - rewrite NoDup_cons, elem_of_cons. intros [Hk0 Hnd] [[= -> ->]|Hin].
    + by case_decide.
    + case_decide; subst; [|by apply IH].
      destruct Hk0. apply list_elem_of_fmap. by exists (k0, v).
Qed.

Lemma dict_keys_set k v d :
  dict_keys (dict_set k v d) =
    if dict_get k d is Some _ then dict_keys d else dict_keys d ++ [k].
Proof.
  unfold dict_keys. induction d as [|[k0 v0] d IH]; csimpl; [done|].
  case_decide; subst; csimpl; [done|].
  rewrite IH. by destruct (dict_get k d).
Qed.

Lemma dict_set_NoDup k v d :
  NoDup (dict_keys d) → NoDup (dict_keys (dict_set k v d)).
Proof.
  intros Hnd. rewrite dict_keys_set.
  destruct (dict_get k d) eqn:Hg; [done|].
  apply NoDup_app. split_and!; [done| |apply NoDup_singleton].
  intros x Hx Hx'. apply list_elem_of_singleton in Hx' as ->.
  apply dict_get_in_keys in Hx as [? ?]. congruence.
Qed.

Lemma dict_keys_del_subseteq k d : dict_keys (dict_del k d) ⊆ dict_keys d.
Proof.
  unfold dict_keys. induction d as [|[k0 v0] d IH]; csimpl; [done|].
  case_decide; csimpl.
  - intros x Hx. apply elem_of_cons. by right.
  - intros x. rewrite !elem_of_cons. intros [->|Hx]; [by left|].
    right. by apply IH.
Qed.

Lemma dict_del_NoDup k d :
  NoDup (dict_keys d) → NoDup (dict_keys (dict_del k d)).
Proof.
  unfold dict_keys. induction d as [|[k0 v0] d IH]; csimpl; [done|].
  rewrite NoDup_cons. intros [Hk0 Hnd]. case_decide; [done|].
  csimpl. apply NoDup_cons. split; [|by apply IH].
  intros Hin. apply Hk0. by apply (dict_keys_del_subseteq k d).
Qed.

End dict_facts.

(** ** Initialisation of the driver-backed repositories

    Every method of the document-store and relational repositories starts
    with [_ensure_indexes]. *)

Lemma create_indexes_spec fields (s : backend Mongo.call) :
  Mongo.create_indexes fields s =
  (Ok (), Backend (inited s)
            (calls s ++
             ((λ p, Mongo.CreateIndex p.2 ("uniq_" +:+ p.1)) <$> fields))).
Proof.
  revert s. induction fields as [|[name field] fields IH]; intros [ini cs]; simpl.
  { unfold mret, io_ret. by rewrite app_nil_r. }
  unfold mbind, io_bind, invoke. simpl. rewrite IH. simpl.
  by rewrite <- app_assoc.
Qed.

Lemma mongo_ensure_indexes_spec self (s : backend Mongo.call) :
  Mongo._ensure_indexes self s =
  (Ok (), Backend true (calls s ++ if inited s then [] else index_calls self)).
Proof.
  destruct s as [[|] cs]; unfold Mongo._ensure_indexes; simpl.
  { by rewrite app_nil_r. }
  unfold Mongo.init_indexes, mbind, io_bind. by rewrite create_indexes_spec.
Qed.




(** ** Empty and vacuous criteria sets (C8, C2) *)







(** ** Validation of range operators and of field names (C7, C3) *)


Lemma simple_op_cases op :
  op ∈ _SIMPLE_OPS →
  op = "gte" ∨ op = "gt" ∨ op = "lte" ∨ op = "lt" ∨ op = "eq" ∨ op = "ne".
Proof. unfold _SIMPLE_OPS. rewrite !elem_of_cons, elem_of_nil. tauto. Qed.

Lemma simple_op_range_operator op : op ∈ _SIMPLE_OPS → op ∈ range_operators.
Proof.
  intros Hop. apply simple_op_cases in Hop. unfold range_operators.
  rewrite !elem_of_cons. tauto.
Qed.

Lemma length_two {A} (l : list A) : length l = 2%nat → ∃ a b, l = [a; b].
Proof. destruct l as [|a [|b [|c l]]]; try done. by exists a, b. Qed.

(** The validation loop raises nothing but [ValueError]. *)
Lemma check_items_cases items :
  check_items items = Ok () ∨ ∃ msg, check_items items = Raise (ValueError msg).
Proof.
  induction items as [|[op v] items IH]; simpl; [by left|].
  repeat first [ case_match | case_bool_decide ]; eauto.
Qed.

Lemma check_items_malformed items op v :
  (op, v) ∈ items → malformed op v →
  ∃ msg, check_items items = Raise (ValueError msg).
Proof.
  intros Hin Hmal. induction items as [|[op' v'] items IH].
  { by apply elem_of_nil in Hin. }
  apply elem_of_cons in Hin as [[= <- <-]|Hin].
  - simpl. destruct Hmal as [[-> Hv]|[[-> Hv]|Hop]].
    + simpl. destruct v as [a|l]; [eauto|].
      case_bool_decide as Hl; [|eauto].
      apply length_two in Hl as (lo & hi & ->). by destruct (Hv lo hi).
    + simpl. destruct v as [a|l]; [eauto|]. by destruct (Hv l).
    + destruct (String.eqb op "between") eqn:Hb.
      { apply String.eqb_eq in Hb as ->. destruct Hop.
        unfold range_operators. rewrite !elem_of_cons. tauto. }
      destruct (String.eqb op "in") eqn:Hi.
      { apply String.eqb_eq in Hi as ->. destruct Hop.
        unfold range_operators. rewrite !elem_of_cons. tauto. }
      case_bool_decide as Hs; [|eauto].
      by apply simple_op_range_operator in Hs.
  - specialize (IH Hin). destruct IH as [msg IH]. simpl. rewrite IH.
    repeat first [ case_match | case_bool_decide ]; eauto.
Qed.

Lemma iter_range_ops_cases d :
  (iter_range_ops d = Ok d ∧ check_items d = Ok ()) ∨
  ∃ msg, iter_range_ops d = Raise (ValueError msg).
Proof.
  destruct d as [|p d]; [by left|]. unfold iter_range_ops.
  destruct (check_items_cases (p :: d)) as [->|[msg ->]]; [by left|eauto].
Qed.

Lemma iter_range_ops_malformed d op v :
  (op, v) ∈ d → malformed op v →
  ∃ msg, iter_range_ops d = Raise (ValueError msg).
Proof.
  intros Hin Hmal. destruct (check_items_malformed d op v Hin Hmal) as [msg Hc].
  destruct d as [|p d]; [by apply elem_of_nil in Hin|].
  unfold iter_range_ops. rewrite Hc. eauto.
Qed.

(** Decides which branch of an operator chain is taken. *)
Ltac op_chain :=
  repeat match goal with
  | |- context [String.eqb ?op ?s] =>
      let Hop := fresh "Hop" in
      destruct (String.eqb op s) eqn:Hop;
      [try (apply String.eqb_eq in Hop; subst)|apply String.eqb_neq in Hop]
  end.










(** ** Unknown field names (C3) *)





(** ** Population of relations (C4) *)

Section population_facts.
Import Registry Populating.

Variable nested_populate :
  string → entity → Datatypes.list string → result (Datatypes.list (string * out)).
Variable resolve : string → result Repository.
Variable rels : gmap string Relation.
Variable nested : gmap string (Datatypes.list string).
Variable item : entity.


(** One pass of the loop over the roots stores, under the root's key, the
    value computed from the local reference. *)
Lemma populate_root_eq f r base :
  rels !! f = Some r →
  populate_root nested_populate resolve rels nested item f base =
  repo ← resolve (target r);
  d ← root_value nested_populate repo r (default [] (nested !! f))
        (read_local item base (local_field r));
  Ok (dict_set f d base).
Proof.
  intros Hr. unfold populate_root, root_value. rewrite Hr.
  destruct (resolve (target r)) as [repo|]; [|done]. simpl.
  generalize (read_local item base (local_field r)). intros val.
  generalize (collect nested_populate repo (default "id" (by_ r)) (target r)
                (default [] (nested !! f)) (as_seq val) []).
  generalize (lookup_ref repo (default "id" (by_ r)) val).
  intros found collected.
  destruct val as [[[| |]|]| | |], (default false (many r)), collected, found;
    done.
Qed.

Lemma populate_root_frame g base base' k :
  populate_root nested_populate resolve rels nested item g base = Ok base' →
  k ≠ g → dict_get k base' = dict_get k base.
Proof.
  intros Hrun Hk. destruct (rels !! g) as [r|] eqn:Hr.
  - rewrite (populate_root_eq g r base Hr) in Hrun.
    destruct (resolve (target r)) as [repo|]; [|done]. simpl in Hrun.
    destruct (root_value _ _ _ _ _) as [d|]; [|done]. injection Hrun as <-.
    by apply dict_get_set_ne.
  - unfold populate_root in Hrun. rewrite Hr in Hrun. by injection Hrun as <-.
Qed.

Lemma populate_roots_frame gs base base' k :
  populate_roots nested_populate resolve rels nested item gs base = Ok base' →
  k ∉ gs → dict_get k base' = dict_get k base.
Proof.
  revert base. induction gs as [|g gs IH]; intros base; simpl.
  { by intros [= ->]. }
  destruct (populate_root _ _ _ _ _ g base) as [base1|] eqn:Hg; [|done].
  simpl. intros Hrun Hk. apply not_elem_of_cons in Hk as [Hkg Hk].
  rewrite (IH _ Hrun Hk). by eapply populate_root_frame.
Qed.

Lemma read_local_ext base base' lf :
  dict_get lf base' = dict_get lf base →
  read_local item base' lf = read_local item base lf.
Proof. unfold read_local. by intros ->. Qed.

(** What the pass for root [f] computes depends on the dictionary built so
    far through the local field only. *)
Lemma populate_root_ext f r base base' :
  rels !! f = Some r →
  dict_get (local_field r) base' = dict_get (local_field r) base →
  (λ b, dict_get f b) <$> populate_root nested_populate resolve rels nested item f base'
  = (λ b, dict_get f b) <$> populate_root nested_populate resolve rels nested item f base.
Proof.
  intros Hr Hlf. rewrite !(populate_root_eq f r) by done.
  rewrite (read_local_ext base base' _ Hlf).
  destruct (resolve (target r)) as [repo|]; [|done]. simpl.
  destruct (root_value _ _ _ _ _) as [d|]; [|done]. simpl.
  by rewrite !dict_get_set_eq.
Qed.

(** In a run over distinct roots, the key of root [f] holds at the end what
    the pass for [f] wrote, and that pass read the local field as it was
    at the start, provided no other root is named like the local field. *)
Lemma populate_roots_at f r gs base base' :
  rels !! f = Some r →
  NoDup gs → f ∈ gs →
  (∀ g, g ∈ gs → g ≠ f → g ≠ local_field r) →
  populate_roots nested_populate resolve rels nested item gs base = Ok base' →
  ∃ base1,
    populate_root nested_populate resolve rels nested item f base = Ok base1 ∧
    dict_get f base' = dict_get f base1.
Proof.
  intros Hr. revert base. induction gs as [|g gs IH]; intros base Hnd Hf Hother.
  { by apply elem_of_nil in Hf. }
  apply NoDup_cons in Hnd as [Hg Hnd]. simpl.
  destruct (populate_root _ _ _ _ _ g base) as [base1|] eqn:Hstep; [|done].
  simpl. intros Hrun.
  destruct (decide (g = f)) as [->|Hgf].
  - exists base1. split; [done|]. by eapply populate_roots_frame.
  - apply elem_of_cons in Hf as [->|Hf]; [done|].
    destruct (IH base1 Hnd Hf) as (base2 & Hstep2 & Hget); [|done|].
    { intros g' Hg'. apply Hother, elem_of_cons. by right. }
    assert (dict_get (local_field r) base1 = dict_get (local_field r) base) as Hlf.
    { eapply populate_root_frame; [done|].
      intros Heq. eapply (Hother g); [apply elem_of_cons; by left|done|done]. }
    pose proof (populate_root_ext f r base base1 Hr Hlf) as Hext.
    rewrite Hstep2 in Hext. simpl in Hext.
    destruct (populate_root _ _ _ _ _ f base) as [base3|] eqn:Hstep3; [|done].
    exists base3. split; [done|]. injection Hext as Hext. congruence.
Qed.



End population_facts.



(** *** Population ends

    The recursion follows the include paths, which get shorter at each
    level: a call stack deeper than the longest include path is never
    exhausted. *)

Lemma within_bind {A B} (m : result A) (k : A → result B) :
  within_depth m → (∀ a, m = Ok a → within_depth (k a)) → within_depth (m ≫= k).
Proof.
  destruct m as [a|e]; intros Hm Hk; [by apply Hk|].
  intros He. apply Hm. simpl in He. by injection He as ->.
Qed.

Lemma within_fmap {A B} (f : A → B) (m : result A) :
  within_depth m → within_depth (f <$> m).
Proof.
  destruct m as [a|e]; intros Hm He; [discriminate He|].
  apply Hm. simpl in He. by injection He as ->.
Qed.

Lemma split_dot_shorter s a b :
  Py.split_dot s = Some (a, b) → (String.length b < String.length s)%nat.
Proof.
  revert a b. induction s as [|c s IH]; intros a b; simpl; [done|].
  destruct (Ascii.eqb c "."); [intros [= <- <-]; lia|].
  destruct (Py.split_dot s) as [[a' b']|]; simpl; [|done].
  intros [= <- <-]. specialize (IH a' b' eq_refl). lia.
Qed.

(** Every remainder recorded for a root is shorter than one of the include
    paths. *)
Lemma split_includes_shorter include f rests rest :
  (Populating.split_includes include).2 !! f = Some rests →
  rest ∈ rests →
  ∃ inc, inc ∈ include ∧ (String.length rest < String.length inc)%nat.
Proof.
  unfold Populating.split_includes.
  assert (∀ (acc : gset string * gmap string (list string)),
            (∀ g rs r, acc.2 !! g = Some rs → r ∈ rs →
                       ∃ inc, inc ∈ include ∧
                              (String.length r < String.length inc)%nat) →
            ∀ done_ todo, include = done_ ++ todo →
            ∀ g rs r,
              (foldl (λ '(roots, nested) inc,
                        match Py.split_dot inc with
                        | Some (root, rest) =>
                            (roots ∪ {[root]},
                             <[root := default [] (nested !! root) ++ [rest]]> nested)
                        | None => (roots ∪ {[inc]}, nested)
                        end) acc todo).2 !! g = Some rs →
              r ∈ rs →
              ∃ inc, inc ∈ include ∧ (String.length r < String.length inc)%nat)
    as Hfold.
  { intros acc Hacc done_ todo. revert acc Hacc done_.
    induction todo as [|inc todo IH]; intros [roots nested] Hacc done_ Hsplit;
      simpl; [exact Hacc|].
    apply (IH _) with (done_ := done_ ++ [inc]); [|by rewrite <- app_assoc].
    destruct (Py.split_dot inc) as [[root rest']|] eqn:Hdot; [|exact Hacc].
    simpl. intros g rs r. rewrite lookup_insert. case_decide as Hg.
    - intros [= <-] Hr. apply elem_of_app in Hr as [Hr|Hr].
      + destruct (nested !! root) as [rs0|] eqn:Hrs0; simpl in Hr.
        * by apply (Hacc root rs0 r).
        * by apply elem_of_nil in Hr.
      + apply list_elem_of_singleton in Hr as ->. exists inc. split.
        * rewrite Hsplit. apply elem_of_app. right. apply list_elem_of_here.
        * by eapply split_dot_shorter.
    - apply Hacc. }
  intros Hrests Hrest.
  by apply (Hfold (∅, ∅)) with (done_ := []) (todo := include) (g := f) (rs := rests).
Qed.

Section population_ends.
Import Registry Populating.

Variable nested_populate :
  string → entity → Datatypes.list string → result (Datatypes.list (string * out)).
Variable resolve : string → result Repository.
Hypothesis resolve_within : ∀ key, within_depth (resolve key).

Lemma child_within tgt child_includes ref :
  (child_includes ≠ [] → within_depth (nested_populate tgt ref child_includes)) →
  within_depth (child nested_populate tgt child_includes ref).
Proof.
  unfold child. destruct child_includes as [|inc rest]; [done|].
  intros Hrec. specialize (Hrec ltac:(done)). by apply within_fmap.
Qed.

Lemma collect_within repo by' tgt child_includes seq acc :
  (∀ ref, child_includes ≠ [] →
          within_depth (nested_populate tgt ref child_includes)) →
  within_depth (collect nested_populate repo by' tgt child_includes seq acc).
Proof.
  intros Hrec. revert acc. induction seq as [|v seq IH]; intros acc; simpl; [done|].
  destruct (lookup_ref repo by' v) as [ref|]; [|apply IH].
  apply within_bind; [by apply child_within, Hrec|]. intros d _. apply IH.
Qed.

Lemma populate_root_within rels nested item f base :
  (∀ tgt ref, default [] (nested !! f) ≠ [] →
              within_depth (nested_populate tgt ref (default [] (nested !! f)))) →
  within_depth (populate_root nested_populate resolve rels nested item f base).
Proof.
  intros Hrec. destruct (rels !! f) as [r|] eqn:Hr.
  - rewrite (populate_root_eq _ _ _ _ _ f r base Hr).
    apply within_bind; [apply resolve_within|]. intros repo _.
    apply within_bind; [|done]. unfold root_value.
    assert (within_depth
              (OList <$> collect nested_populate repo (default "id" (by_ r))
                           (target r) (default [] (nested !! f))
                           (as_seq (read_local item base (local_field r))) []))
      as Hmany.
    { apply within_fmap, collect_within, Hrec. }
    assert (within_depth
              match lookup_ref repo (default "id" (by_ r))
                      (read_local item base (local_field r)) with
              | Some ref => child nested_populate (target r)
                              (default [] (nested !! f)) ref
              | None => Ok (OVal none)
              end) as Hone.
    { destruct (lookup_ref _ _ _) as [ref|]; [|done].
      apply child_within, Hrec. }
    revert Hmany Hone.
    generalize (read_local item base (local_field r)). intros val Hmany Hone.
    destruct val as [[[| |]|]| | |], (default false (many r)); done.
  - unfold populate_root. by rewrite Hr.
Qed.

Lemma populate_roots_within rels nested item roots base :
  (∀ f tgt ref, default [] (nested !! f) ≠ [] →
                within_depth (nested_populate tgt ref (default [] (nested !! f)))) →
  within_depth (populate_roots nested_populate resolve rels nested item roots base).
Proof.
  intros Hrec. revert base. induction roots as [|f roots IH]; intros base; simpl;
    [done|].
  apply within_bind; [by apply populate_root_within, Hrec|]. intros base' _.
  apply IH.
Qed.

End population_ends.

(** [_populate] does not run out of call stack when the stack is deeper
    than the longest include path, whatever the relations and the stored
    references are (cycles included). *)
Lemma populate_ends depth reg resolve key item include :
  (∀ target, within_depth (resolve target)) →
  (∀ inc, inc ∈ include → (String.length inc ≤ depth)%nat) →
  within_depth (Populating._populate (S depth) reg resolve key item include).
Proof.
  intros Hresolve. revert key item include.
  induction depth as [|depth IH]; intros key item include Hlen; simpl;
    unfold Populating.populate_body.
  all: apply within_bind; [unfold Registry.get_entity_config;
                           by destruct (reg !! key)|].
  all: intros cfg _.
  all: destruct (Populating.split_includes include) as [roots nested] eqn:Hsplit.
  all: apply populate_roots_within; [done|].
  all: intros f tgt ref Hchildren.
  all: destruct (nested !! f) as [rests|] eqn:Hrests; [|done]; simpl in *.
  all: destruct rests as [|rest rests]; [done|].
  all: destruct (split_includes_shorter include f (rest :: rests) rest)
         as (inc & Hinc & Hshorter);
         [by rewrite Hsplit|apply list_elem_of_here|].
  - specialize (Hlen inc Hinc). lia.
  - apply IH. intros rest' Hrest'.
    destruct (split_includes_shorter include f (rest :: rests) rest')
      as (inc' & Hinc' & Hshorter'); [by rewrite Hsplit|done|].
    specialize (Hlen inc' Hinc'). lia.
Qed.

(** The scenario of the specification: an order whose customer does not
    exist is returned with [None] under ["customer"]. *)
Example order_without_customer :
  let reg : Registry.registry :=
    {[ "order" := {| Registry.collection := Some "orders";
                     Registry.relations := Some
                       {[ "customer" := {| Registry.local_field := "customerId";
                                           Registry.target := "customer";
                                           Registry.by_ := None;
                                           Registry.many := None |} ]} |} ]} in
  let orders : Populating.Repository :=
    {| Populating.get := λ v,
         match v with
         | Populating.OVal (VAtom (AInt 1)) => Some (order 1 42 10)
         | _ => None
         end;
       Populating.get_by_index := λ _ _, None |} in
  Populating.get_with 1 reg
    {| Populating._key := "order"; Populating._inner := orders;
       Populating._resolve := λ _, Ok user_repo |}
    (AInt 1) ["customer"]
  = Ok (Some [("id", Populating.OVal (VAtom (AInt 1)));
              ("customerId", Populating.OVal (VAtom (AInt 42)));
              ("total", Populating.OVal (VAtom (AInt 10)));
              ("customer", Populating.OVal none)]).
Proof. vm_compute. reflexivity. Qed.

(** A [dict] entity whose local field is named like a method of [dict]:
    [hasattr] finds the method, so the reference that is looked up is the
    bound method and not the stored list of identities; no tag has it as
    identity, and the populated list is empty.  Under a name that is no
    attribute of [dict], the stored identities are looked up. *)
Example dict_method_shadows_local_field :
  let basket (lf : string) : Registry.registry :=
    {[ "basket" := {| Registry.collection := Some "baskets";
                      Registry.relations := Some
                        {[ "tags" := {| Registry.local_field := lf;
                                        Registry.target := "tag";
                                        Registry.by_ := None;
                                        Registry.many := Some true |} ]} |} ]} in
  let item (lf : string) : entity :=
    Entity Dict [("id", VAtom (AInt 10)); (lf, VList [AInt 1; AInt 2; AInt 3])] in
  Populating.read_local (item "items") (Populating._to_dict (item "items")) "items"
  = Populating.OObj "items" ∧
  Populating._populate 1 (basket "items") blog_resolve "basket" (item "items")
    ["tags"]
  = Ok [("id", Populating.OVal (VAtom (AInt 10)));
        ("items", Populating.OVal (VList [AInt 1; AInt 2; AInt 3]));
        ("tags", Populating.OList [])] ∧
  Populating._populate 1 (basket "tagIds") blog_resolve "basket" (item "tagIds")
    ["tags"]
  = Ok [("id", Populating.OVal (VAtom (AInt 10)));
        ("tagIds", Populating.OVal (VList [AInt 1; AInt 2; AInt 3]));
        ("tags", Populating.OList
                   [Populating.ODict (Populating._to_dict (tag 1 "rocq"));
                    Populating.ODict (Populating._to_dict (tag 3 "python"))])].
Proof. split_and!; vm_compute; reflexivity. Qed.

(** ** Sorting (C9) *)

Lemma string_compare_trans s t u :
  String.compare s t ≠ Gt → String.compare t u ≠ Gt → String.compare s u ≠ Gt.
Proof.
  assert (∀ a b, String.compare a b ≠ Gt →
                 OrderedTypeEx.String_as_OT.lt a b ∨ a = b) as Hle.
  { intros a b Hab. destruct (String.compare a b) eqn:Hc; [|left|done].
    - right. by apply OrderedTypeEx.String_as_OT.cmp_eq.
    - by apply OrderedTypeEx.String_as_OT.cmp_lt. }
  intros Hst Htu. apply Hle in Hst, Htu.
  assert (OrderedTypeEx.String_as_OT.lt s u ∨ s = u) as [Hlt| ->].
  { destruct Hst as [Hst| ->], Htu as [Htu| ->]; auto.
    left. by eapply OrderedTypeEx.String_as_OT.lt_trans. }
  - apply OrderedTypeEx.String_as_OT.cmp_lt in Hlt.
    unfold OrderedTypeEx.String_as_OT.cmp in Hlt. by rewrite Hlt.
  - assert (String.compare u u = Eq) as ->; [|done].
    by apply OrderedTypeEx.String_as_OT.cmp_eq.
Qed.

(** Keys of one kind compare without raising, and the comparison is a
    total order on them. *)
Lemma compare_of_kind k u v :
  has_kind k u → has_kind k v →
  ∃ c, Py.compare u v = Ok c ∧ Py.compare v u = Ok (CompOpp c) ∧ (c = Eq ↔ u = v).
Proof.
  destruct k, u as [[|x|s]|], v as [[|y|t]|]; try done; intros _ _; simpl.
  - exists (x ?= y). split_and!; [done|by rewrite Z.compare_antisym|].
    rewrite Z.compare_eq_iff. split; [by intros ->|by intros [= ->]].
  - exists (String.compare s t). split_and!; [done| |].
    + by rewrite (String.compare_antisym t s).
    + split.
      * intros Hc. apply String.compare_eq_iff in Hc. by subst.
      * intros [= ->]. by apply (proj2 (OrderedTypeEx.String_as_OT.cmp_eq t t)).
Qed.

Lemma compare_trans_of_kind k u v w c1 c2 :
  has_kind k u → has_kind k v → has_kind k w →
  Py.compare u v = Ok c1 → Py.compare v w = Ok c2 → c1 ≠ Gt → c2 ≠ Gt →
  ∃ c3, Py.compare u w = Ok c3 ∧ c3 ≠ Gt.
Proof.
  destruct k, u as [[|x|s]|], v as [[|y|t]|], w as [[|z|r]|]; try done;
    intros _ _ _; simpl; intros [= <-] [= <-] H1 H2; eexists; (split; [done|]).
  - destruct (Z.compare_spec x y), (Z.compare_spec y z), (Z.compare_spec x z);
      try done; lia.
  - by eapply string_compare_trans.
Qed.

Section sort_facts.
Context {A : Type} (k : kind) (key : A → value).

#[local] Instance key_le_trans : Transitive (key_le k key).
Proof.
  intros a b c (Ha & Hb & Hab) (_ & Hc & Hbc). split_and!; [done..|].
  unfold Py.le in *.
  destruct (Py.compare (key a) (key b)) as [c1|] eqn:H1; [|done].
  destruct (Py.compare (key b) (key c)) as [c2|] eqn:H2; [|done].
  simpl in Hab, Hbc.
  destruct (compare_trans_of_kind k _ _ _ c1 c2 Ha Hb Hc H1 H2) as (c3 & -> & H3).
  - by destruct c1.
  - by destruct c2.
  - simpl. by destruct c3.
Qed.

(** The outcome of the one comparison that [insort] makes. *)
Lemma lt_of_kind a b :
  has_kind k (key a) → has_kind k (key b) →
  (Py.lt (key b) (key a) = Ok true ∧ key_le k key b a) ∨
  (Py.lt (key b) (key a) = Ok false ∧ key_le k key a b).
Proof.
  intros Ha Hb. unfold key_le, Py.lt, Py.le.
  destruct (compare_of_kind k (key b) (key a) Hb Ha) as (c & -> & -> & _).
  simpl. destruct c; simpl; [right|left|right]; by split_and!.
Qed.

Lemma key_le_antisym a b :
  key_le k key a b → key_le k key b a → key a = key b.
Proof.
  intros (Ha & Hb & Hab) (_ & _ & Hba). unfold Py.le in *.
  destruct (compare_of_kind k (key a) (key b) Ha Hb) as (c & Hc & Hc' & Heq).
  rewrite Hc in Hab. rewrite Hc' in Hba. simpl in *.
  apply Heq. by destruct c.
Qed.

Lemma key_le_ge a b :
  key_le k key a b → Py.ge (key b) (key a) = Ok true.
Proof.
  intros (Ha & Hb & Hab). unfold Py.le, Py.ge in *.
  destruct (compare_of_kind k (key a) (key b) Ha Hb) as (c & Hc & -> & _).
  rewrite Hc in Hab. simpl in *. by destruct c.
Qed.

Lemma insort_ok x l :
  has_kind k (key x) → Forall (λ a, has_kind k (key a)) l →
  StronglySorted (key_le k key) l →
  ∃ l', Py.insort key x l = Ok l' ∧ l' ≡ₚ x :: l ∧
        StronglySorted (key_le k key) l'.
Proof.
  intros Hx. induction l as [|y l IH]; intros Hl Hsorted; simpl.
  { exists [x]. split_and!; [done..|]. repeat constructor. }
  apply Forall_cons in Hl as [Hy Hl].
  apply StronglySorted_cons in Hsorted as [Hyl Hsorted].
  destruct (lt_of_kind x y Hx Hy) as [[-> Hle]|[-> Hle]]; simpl.
  - destruct (IH Hl Hsorted) as (l' & -> & Hperm & Hsorted'). simpl.
    exists (y :: l'). split_and!; [done| |].
    + rewrite Hperm. apply perm_swap.
    + apply StronglySorted_cons. split; [|done].
      rewrite Hperm. by constructor.
  - exists (x :: y :: l). split_and!; [done..|].
    apply StronglySorted_cons. split; [|by apply StronglySorted_cons].
    constructor; [done|]. eapply Forall_impl; [exact Hyl|].
    intros z Hz. by etransitivity.
Qed.

Lemma sort_asc_ok l :
  Forall (λ a, has_kind k (key a)) l →
  ∃ l', Py.sort_asc key l = Ok l' ∧ l' ≡ₚ l ∧ StronglySorted (key_le k key) l'.
Proof.
  induction l as [|x l IH]; intros Hl; simpl.
  { exists []. split_and!; [done..|constructor]. }
  apply Forall_cons in Hl as [Hx Hl].
  destruct (IH Hl) as (l1 & -> & Hperm & Hsorted). simpl.
  destruct (insort_ok x l1 Hx) as (l' & -> & Hperm' & Hsorted'); [|done|].
  { by rewrite Hperm. }
  exists l'. split_and!; [done| |done]. by rewrite Hperm', Hperm.
Qed.

Lemma StronglySorted_rev (R : relation A) l :
  StronglySorted R l → StronglySorted (flip R) (rev l).
Proof.
  induction 1 as [|x l Hl IH Hx]; simpl; [constructor|].
  apply StronglySorted_app_2; [|done|repeat constructor].
  intros a b Ha Hb. apply list_elem_of_singleton in Hb as ->.
  rewrite Forall_forall in Hx. apply Hx. apply list_elem_of_In.
  apply in_rev, list_elem_of_In, Ha.
Qed.

Lemma StronglySorted_weaken (R S : relation A) l :
  (∀ a b, R a b → S a b) → StronglySorted R l → StronglySorted S l.
Proof.
  intros HRS. induction 1 as [|x l Hl IH Hx]; constructor; [done|].
  eapply Forall_impl; [exact Hx|]. auto.
Qed.

Lemma StronglySorted_slice (R : relation A) lo hi l :
  StronglySorted R l → StronglySorted R (Py.slice lo hi l).
Proof.
  intros Hl. unfold Py.slice.
  eapply StronglySorted_app_1_l. rewrite take_drop.
  eapply StronglySorted_app_1_r. rewrite take_drop. exact Hl.
Qed.

(** [sort] with either direction returns, and its result is ordered. *)
Lemma sort_ok reverse l :
  Forall (λ a, has_kind k (key a)) l →
  ∃ l', Py.sort key reverse l = Ok l' ∧ l' ≡ₚ l ∧
        if reverse then non_increasing key l' else non_decreasing key l'.
Proof.
  intros Hl. unfold Py.sort. destruct reverse.
  - destruct (sort_asc_ok (rev l)) as (l' & -> & Hperm & Hsorted).
    { apply Forall_forall. intros a Ha. rewrite Forall_forall in Hl.
      apply Hl, list_elem_of_In, in_rev, list_elem_of_In, Ha. }
    exists (rev l'). split_and!; [done| |].
    + by rewrite <- Permutation_rev, Hperm, <- Permutation_rev.
    + apply StronglySorted_rev in Hsorted.
      eapply StronglySorted_weaken; [|exact Hsorted].
      intros a b Hab. by apply key_le_ge.
  - destruct (sort_asc_ok l Hl) as (l' & -> & Hperm & Hsorted).
    exists l'. split_and!; [done..|].
    eapply StronglySorted_weaken; [|exact Hsorted]. by intros a b (_ & _ & ?).
Qed.

(** With pairwise distinct keys the descending order is the reverse of the
    ascending one. *)
Lemma sort_reverse_distinct l :
  Forall (λ a, has_kind k (key a)) l →
  NoDup (key <$> l) →
  ∃ l', Py.sort key false l = Ok l' ∧ Py.sort key true l = Ok (rev l').
Proof.
  intros Hl Hnd. unfold Py.sort.
  destruct (sort_asc_ok l Hl) as (l1 & -> & Hperm1 & Hsorted1).
  destruct (sort_asc_ok (rev l)) as (l2 & -> & Hperm2 & Hsorted2).
  { apply Forall_forall. intros a Ha. rewrite Forall_forall in Hl.
    apply Hl, list_elem_of_In, in_rev, list_elem_of_In, Ha. }
  exists l1. split; [done|]. simpl. do 2 f_equal.
  apply (StronglySorted_unique_strong (key_le k key)); [|done..|].
  - intros a b Ha Hb Hab Hba.
    assert (key a = key b) as Hkey by by apply key_le_antisym.
    rewrite Hperm2, <- Permutation_rev in Ha. rewrite Hperm1 in Hb.
    clear -Hnd Ha Hb Hkey. induction l as [|x l IH]; [by apply elem_of_nil in Ha|].
    csimpl in Hnd. apply NoDup_cons in Hnd as [Hx Hnd].
    apply elem_of_cons in Ha as [->|Ha], Hb as [->|Hb]; [done| | |by apply IH].
    + destruct Hx. rewrite Hkey. apply list_elem_of_fmap. by exists b.
    + destruct Hx. rewrite <- Hkey. apply list_elem_of_fmap. by exists a.
  - by rewrite Hperm2, <- Permutation_rev, Hperm1.
Qed.

End sort_facts.

Lemma slice_all {A} (l : list A) (limit : Z) :
  Z.of_nat (length l) ≤ limit →
  Py.slice (Some 0) (Some (0 + limit)) l = l.
Proof.
  intros Hlimit. unfold Py.slice, Py.slice_index. simpl.
  rewrite Z.add_0_l.
  destruct (Z.ltb_spec limit 0) as [Hneg|Hneg]; [lia|].
  rewrite (Z.min_l 0) by lia. rewrite Z.min_r by lia.
  rewrite Z.sub_0_r, Nat2Z.id. simpl. apply firstn_all.
Qed.

(** *** The sort is stable in both directions *)

Lemma compare_same v c : Py.compare v v = Ok c → c = Eq.
Proof.
  destruct v as [[|x|s]|l]; simpl; try done.
  - intros [= <-]. apply Z.compare_refl.
  - intros [= <-]. by apply (proj2 (OrderedTypeEx.String_as_OT.cmp_eq s s)).
  - induction l as [|a l IH]; simpl; [by intros [= <-]|].
    by rewrite decide_True.
Qed.

Lemma lt_distinct v w : Py.lt v w = Ok true → v ≠ w.
Proof.
  intros Hlt ->. unfold Py.lt in Hlt.
  destruct (Py.compare w w) as [c|] eqn:Hc; [|done].
  apply compare_same in Hc as ->. discriminate Hlt.
Qed.

Lemma filter_rev {A} (P : A → Prop) `{∀ x, Decision (P x)} (l : list A) :
  filter P (rev l) = rev (filter P l).
Proof.
  induction l as [|x l IH]; simpl; [done|].
  rewrite filter_app, IH, !filter_cons, filter_nil.
  destruct (decide (P x)); simpl; [done|by rewrite app_nil_r].
Qed.

(** An insertion goes before the first element whose key is not smaller:
    it overtakes no element with the same key. *)
Lemma insort_stable {A} (key : A → value) (x : A) (l l' : list A) :
  Py.insort key x l = Ok l' → keeps_order_of_equal_keys key (x :: l) l'.
Proof.
  revert l'. induction l as [|y l IH]; intros l'; simpl.
  { by intros [= <-] v. }
  destruct (Py.lt (key y) (key x)) as [[|]|] eqn:Hlt; simpl; [|by intros [= <-] v|done].
  destruct (Py.insort key x l) as [r|] eqn:Hr; simpl; [|done].
  intros [= <-] v. apply lt_distinct in Hlt.
  rewrite (filter_cons _ y r), (IH r eq_refl v), !filter_cons.
  destruct (decide (key y = v)) as [Hy|Hy], (decide (key x = v)) as [Hx|Hx];
    try done.
  congruence.
Qed.

Lemma sort_asc_stable {A} (key : A → value) (l l' : list A) :
  Py.sort_asc key l = Ok l' → keeps_order_of_equal_keys key l l'.
Proof.
  revert l'. induction l as [|x l IH]; intros l'; simpl.
  { by intros [= <-] v. }
  destruct (Py.sort_asc key l) as [s|] eqn:Hs; simpl; [|done].
  intros Hins v. rewrite (insort_stable key x s l' Hins v), !filter_cons.
  by rewrite (IH s eq_refl v).
Qed.

(** [sort] keeps the elements with equal keys in their original order,
    with [reverse] as without. *)
Lemma sort_stable {A} (key : A → value) (reverse : bool) (l l' : list A) :
  Py.sort key reverse l = Ok l' → keeps_order_of_equal_keys key l l'.
Proof.
  unfold Py.sort. destruct reverse; [|apply sort_asc_stable].
  destruct (Py.sort_asc key (rev l)) as [s|] eqn:Hs; simpl; [|done].
  intros [= <-] v.
  by rewrite filter_rev, (sort_asc_stable key (rev l) s Hs v), filter_rev,
    rev_involutive.
Qed.

(** C9 as stated fails on ties: the sort is stable in both directions, so
    two orders with the same total come out in insertion order whether
    [sort_desc] is set or not, and the descending sequence is not the
    reverse of the ascending one.  It also fails when the window is
    shorter than the store (the two calls return the two ends of the
    order), and when the field of some entity is [None] (the comparison
    raises). *)
Lemma descending_sort_keeps_ties_in_order :
  Memory.list tied_orders 0 50 (Some "total") false
  = Ok [order 1 42 10; order 2 43 10] ∧
  Memory.list tied_orders 0 50 (Some "total") true
  = Ok [order 1 42 10; order 2 43 10] ∧
  rev [order 1 42 10; order 2 43 10] ≠ [order 1 42 10; order 2 43 10] ∧
  Memory.list orders_store 0 2 (Some "total") false
  = Ok [order 1 42 5; order 2 42 10] ∧
  Memory.list orders_store 0 2 (Some "total") true
  = Ok [order 5 44 25; order 4 43 20] ∧
  Memory.list pending_orders 0 50 (Some "total") false = Raise TypeError.
Proof. split_and!; try reflexivity. discriminate. Qed.

(** C9, amended: when the field [f] of every stored entity holds an
    integer, or of every stored entity a string, [list] sorted by [f]
    returns, for every window, entities non-decreasing in [f] when
    [sort_desc] is off and non-increasing in [f] when it is on; when the
    values of [f] are moreover pairwise distinct and the window covers the
    whole store, the descending sequence is the reverse of the ascending
    one.  In each direction the result is the window [offset : offset +
    limit] of one sequence that is a rearrangement of the stored entities,
    ordered by [f] in that direction, in which the entities with equal
    values of [f] keep their insertion order. *)
Theorem memory_list_sorted (self : Memory.MemoryRepository) (f : string)
    (k : kind) :
  Forall (λ e, has_kind k (Memory._get_field_value e f))
    (dict_values (Memory._items self)) →
  (∀ offset limit,
     ∃ asc, Memory.list self offset limit (Some f) false = Ok asc ∧
            non_decreasing (λ e, Memory._get_field_value e f) asc) ∧
  (∀ offset limit,
     ∃ desc, Memory.list self offset limit (Some f) true = Ok desc ∧
             non_increasing (λ e, Memory._get_field_value e f) desc) ∧
  (NoDup ((λ e, Memory._get_field_value e f) <$> dict_values (Memory._items self)) →
   ∀ limit,
     Z.of_nat (length (Memory._items self)) ≤ limit →
     ∃ asc, Memory.list self 0 limit (Some f) false = Ok asc ∧
            Memory.list self 0 limit (Some f) true = Ok (rev asc)) ∧
  (∀ sort_desc : bool,
     ∃ sorted,
       sorted ≡ₚ dict_values (Memory._items self) ∧
       (if sort_desc
        then non_increasing (λ e, Memory._get_field_value e f) sorted
        else non_decreasing (λ e, Memory._get_field_value e f) sorted) ∧
       keeps_order_of_equal_keys (λ e, Memory._get_field_value e f)
         (dict_values (Memory._items self)) sorted ∧
       ∀ offset limit,
         Memory.list self offset limit (Some f) sort_desc
         = Ok (Py.slice (Some offset) (Some (offset + limit)) sorted)).
Proof.
  intros Hkind. split_and!; [| | |intros sort_desc; unfold Memory.list;
    destruct (sort_ok k _ sort_desc _ Hkind) as (l & Hsort & Hperm & Hsorted);
    exists l; rewrite Hsort; split_and!;
      [done|done|by eapply sort_stable|done]].
  - intros offset limit. unfold Memory.list.
    destruct (sort_ok k _ false _ Hkind) as (l & -> & _ & Hsorted). simpl.
    eexists. split; [done|]. by apply StronglySorted_slice.
  - intros offset limit. unfold Memory.list.
    destruct (sort_ok k _ true _ Hkind) as (l & -> & _ & Hsorted). simpl.
    eexists. split; [done|]. by apply StronglySorted_slice.
  - intros Hnd limit Hlimit. unfold Memory.list.
    destruct (sort_ok k _ false _ Hkind) as (l & Hsort & Hperm & _).
    destruct (sort_reverse_distinct k _ _ Hkind Hnd) as (l' & Hasc & Hdesc).
    rewrite Hsort in Hasc. injection Hasc as <-.
    rewrite Hsort, Hdesc. simpl.
    assert (length l = length (Memory._items self)) as Hlen.
    { rewrite Hperm. unfold dict_values. by rewrite length_fmap. }
    exists l. rewrite !slice_all; [done|..].
    + rewrite length_rev. lia.
    + lia.
Qed.

Lemma memory_list_sorted_witness :
  (∀ offset limit,
     ∃ asc, Memory.list orders_store offset limit (Some "total") false = Ok asc ∧
            non_decreasing (λ e, Memory._get_field_value e "total") asc) ∧
  (∀ offset limit,
     ∃ desc, Memory.list orders_store offset limit (Some "total") true = Ok desc ∧
             non_increasing (λ e, Memory._get_field_value e "total") desc) ∧
  (NoDup ((λ e, Memory._get_field_value e "total")
            <$> dict_values (Memory._items orders_store)) →
   ∀ limit,
     Z.of_nat (length (Memory._items orders_store)) ≤ limit →
     ∃ asc, Memory.list orders_store 0 limit (Some "total") false = Ok asc ∧
            Memory.list orders_store 0 limit (Some "total") true = Ok (rev asc)) ∧
  (∀ sort_desc : bool,
     ∃ sorted,
       sorted ≡ₚ dict_values (Memory._items orders_store) ∧
       (if sort_desc
        then non_increasing (λ e, Memory._get_field_value e "total") sorted
        else non_decreasing (λ e, Memory._get_field_value e "total") sorted) ∧
       keeps_order_of_equal_keys (λ e, Memory._get_field_value e "total")
         (dict_values (Memory._items orders_store)) sorted ∧
       ∀ offset limit,
         Memory.list orders_store offset limit (Some "total") sort_desc
         = Ok (Py.slice (Some offset) (Some (offset + limit)) sorted)).
Proof.
  apply (memory_list_sorted orders_store "total" KInt).
  repeat constructor.
Defined.

(** The tied orders of the counterexample: both directions return them in
    insertion order, as the stable sort must. *)
Example tied_orders_keep_insertion_order :
  ∀ sort_desc,
    ∃ sorted,
      Memory.list tied_orders 0 50 (Some "total") sort_desc = Ok sorted ∧
      keeps_order_of_equal_keys (λ e, Memory._get_field_value e "total")
        (dict_values (Memory._items tied_orders)) sorted ∧
      sorted = [order 1 42 10; order 2 43 10].
Proof.
  intros sort_desc. exists [order 1 42 10; order 2 43 10].
  split_and!; [by destruct sort_desc| |done].
  intros v. reflexivity.
Qed.

(** The five orders by descending total. *)
Example orders_by_descending_total :
  Memory.list orders_store 0 50 (Some "total") true
  = Ok [order 5 44 25; order 4 43 20; order 3 43 15; order 2 42 10; order 1 42 5].
Proof. reflexivity. Qed.

(** The range scenario of the specification: totals from 10 to 20. *)
Example orders_with_total_from_10_to_20 :
  Memory.list_by_fields orders_store
    [("total", CRange [("gte", VAtom (AInt 10)); ("lte", VAtom (AInt 20))])]
    0 (Some 50) None false
  = Ok [order 2 42 10; order 3 43 15; order 4 43 20].
Proof. reflexivity. Qed.

(** ** Unknown sort attributes (C6) *)




(** ** The memory repository: items and unique indexes *)

Section memory_facts.
Import Memory.
Implicit Types (self : MemoryRepository) (e : entity) (i : atom).
Implicit Types (exts : Datatypes.list (string * (entity → atom))%type).
Implicit Types (ix : gmap string (gmap atom atom)).

Lemma index_entity_each exts e i ix :
  index_entity exts e i ix = update_each (λ ext idx, <[ext e := i]> idx) exts ix.
Proof.
  revert ix. induction exts as [|[name ext] exts IH]; intros ix; simpl; [done|].
  destruct (ix !! name); [apply IH|done].
Qed.

Lemma unindex_entity_each exts e i ix :
  unindex_entity exts e i ix =
  update_each (λ ext idx, if bool_decide (default ANone (idx !! ext e) = i)
                          then base.delete (ext e) idx else idx) exts ix.
Proof.
  revert ix. induction exts as [|[name ext] exts IH]; intros ix; simpl; [done|].
  destruct (ix !! name); [apply IH|done].
Qed.

(** On a repository whose extractors all have their index, the index loop
    does not raise, and touches each named index once. *)
Lemma update_each_spec g exts ix :
  NoDup exts.*1 →
  (∀ name, name ∈ exts.*1 → is_Some (ix !! name)) →
  ∃ ix', update_each g exts ix = Ok ix' ∧
         ∀ name, ix' !! name =
                 match dict_get name exts with
                 | Some ext => g ext <$> ix !! name
                 | None => ix !! name
                 end.
Proof.
  revert ix. induction exts as [|[name ext] exts IH]; intros ix; csimpl.
  - intros _ _. by exists ix.
  - rewrite NoDup_cons. intros [Hname Hnd] Hdom.
    destruct (Hdom name) as [idx Hidx]; [apply elem_of_cons; by left|].
    rewrite Hidx.
    destruct (IH (<[name := g ext idx]> ix) Hnd) as (ix' & Hrun & Hix').
    { intros n Hn. rewrite lookup_insert_ne; [|by intros ->].
      apply Hdom, elem_of_cons. by right. }
    exists ix'. split; [done|]. intros n. rewrite Hix'.
    case_decide as Hn; subst.
    + rewrite dict_get_not_in_keys; [|done].
      by rewrite lookup_insert_eq, Hidx.
    + rewrite lookup_insert_ne; done.
Qed.

Lemma update_each_is_Some g exts ix ix' name :
  update_each g exts ix = Ok ix' → is_Some (ix !! name) → is_Some (ix' !! name).
Proof.
  revert ix. induction exts as [|[n ext] exts IH]; intros ix; simpl.
  - by intros [= ->].
  - destruct (ix !! n) as [idx|] eqn:Hidx; [|done].
    intros Hrun Hsome. apply (IH _ Hrun).
    rewrite lookup_insert. by case_decide.
Qed.

Lemma wf_init id_getter unique_indexes :
  NoDup (dict_keys unique_indexes) → wf (__init__ id_getter unique_indexes).
Proof.
  intros Hnd. split_and!; [apply NoDup_nil_2|done|]. simpl. intros name Hname.
  apply list_elem_of_fmap in Hname as ([n ext] & -> & Hin). simpl.
  exists ∅. apply elem_of_list_to_map_1'.
  - intros y Hy. by apply list_elem_of_fmap in Hy as ([n' ext'] & [= _ ->] & _).
  - apply list_elem_of_fmap. by exists (n, ext).
Qed.

(** [add] on a well-formed repository: it returns, the entity is stored
    under its identity, and every index gains the entry for the entity's
    indexed value. *)
Lemma add_spec self e :
  wf self →
  ∃ ix', add self e =
           Ok {| _id_getter := _id_getter self;
                 _items := dict_set (_id_getter self e) e (_items self);
                 _indexes := ix'; _extractors := _extractors self |} ∧
         (∀ name, ix' !! name =
                  match dict_get name (_extractors self) with
                  | Some ext => <[ext e := _id_getter self e]> <$> _indexes self !! name
                  | None => _indexes self !! name
                  end).
Proof.
  intros (_ & Hnd & Hdom). unfold add. rewrite index_entity_each.
  destruct (update_each_spec (λ ext idx, <[ext e := _id_getter self e]> idx)
              _ _ Hnd Hdom) as (ix' & Hrun & Hix').
  rewrite Hrun. by exists ix'.
Qed.

Lemma add_wf self e : wf self → ∃ self', add self e = Ok self' ∧ wf self'.
Proof.
  intros Hwf. destruct (add_spec self e Hwf) as (ix' & Hadd & Hix').
  destruct Hwf as (Hitems & Hnd & Hdom).
  eexists; split; [done|]. split_and!; simpl; [by apply dict_set_NoDup|done|].
  intros name Hname. rewrite Hix'.
  destruct (Hdom name Hname) as [idx ->]. by destruct (dict_get name _).
Qed.

Lemma update_is_add self e : update self e = add self e.
Proof. reflexivity. Qed.

(** [delete] of a stored, truthy entity on a well-formed repository: the
    entity goes, and in each index the entry for its indexed value goes
    when it points at the deleted identity. *)
Lemma delete_spec self i ent :
  wf self →
  dict_get i (_items self) = Some ent →
  entity_truthy ent = true →
  ∃ ix', delete self i =
           Ok {| _id_getter := _id_getter self;
                 _items := dict_del i (_items self);
                 _indexes := ix'; _extractors := _extractors self |} ∧
         (∀ name, ix' !! name =
                  match dict_get name (_extractors self) with
                  | Some ext =>
                      (λ idx, if bool_decide (default ANone (idx !! ext ent) = i)
                              then base.delete (ext ent) idx else idx)
                        <$> _indexes self !! name
                  | None => _indexes self !! name
                  end).
Proof.
  intros (_ & Hnd & Hdom) Hent Htruthy. unfold delete.
  rewrite Hent, Htruthy, unindex_entity_each.
  match goal with |- context [update_each ?g _ _] =>
    destruct (update_each_spec g _ _ Hnd Hdom) as (ix' & Hrun & Hix') end.
  rewrite Hrun. by exists ix'.
Qed.

Lemma delete_wf self i : wf self → ∃ self', delete self i = Ok self' ∧ wf self'.
Proof.
  intros Hwf. pose proof Hwf as (Hitems & Hnd & Hdom).
  assert (NoDup (dict_keys (dict_del i (_items self)))) by by apply dict_del_NoDup.
  destruct (dict_get i (_items self)) as [ent|] eqn:Hent;
    [destruct (entity_truthy ent) eqn:Htruthy|].
  - destruct (delete_spec self i ent Hwf Hent Htruthy) as (ix' & -> & Hix').
    eexists; split; [done|]. split_and!; simpl; [done..|].
    intros name Hname. rewrite Hix'.
    destruct (Hdom name Hname) as [idx ->]. by destruct (dict_get name _).
  - unfold delete. rewrite Hent, Htruthy. by eexists.
  - unfold delete. rewrite Hent. by eexists.
Qed.

(** No sequence of operations raises, and the repository stays well
    formed. *)
Lemma run_ops_wf self os :
  wf self → ∃ self', run_ops self os = Ok self' ∧ wf self'.
Proof.
  revert self. induction os as [|o os IH]; intros self Hwf; simpl.
  - by exists self.
  - assert (∃ self1, run_op self o = Ok self1 ∧ wf self1) as (self1 & -> & Hwf1).
    { destruct o; simpl; [by apply add_wf|by apply add_wf|by apply delete_wf]. }
    apply IH, Hwf1.
Qed.

(** [update] stores the entity under its identity whether or not the
    identity was present: for an absent identity the store grows by one. *)
Lemma update_missing_inserts self e :
  wf self →
  get self (_id_getter self e) = None →
  ∃ self', update self e = Ok self' ∧
           get self' (_id_getter self e) = Some e ∧
           length (_items self') = S (length (_items self)).
Proof.
  intros Hwf Hget. rewrite update_is_add.
  destruct (add_wf self e Hwf) as (self' & Hadd & _).
  exists self'. split; [done|]. unfold add in Hadd.
  destruct (index_entity _ _ _ _); [|done]. injection Hadd as <-.
  unfold get. simpl. split; [apply dict_get_set_eq|].
  by apply dict_set_length_None.
Qed.

End memory_facts.

(** C1 (the memory backend departs from it): on an empty memory
    repository, [update] of an entity whose identity is not stored does not
    raise, and it is not a no-op: the entity is inserted and the entity
    count goes from 0 to 1. *)
Theorem memory_update_inserts_missing :
  Memory.get plain_repo (AInt 1) = None ∧
  ∃ self',
    Memory.update plain_repo (obj [("id", int 1); ("name", str "ann")]) = Ok self' ∧
    length (Memory._items plain_repo) = 0%nat ∧
    length (Memory._items self') = 1%nat ∧
    Memory.get self' (AInt 1) = Some (obj [("id", int 1); ("name", str "ann")]).
Proof. split; [done|]. by eexists. Qed.

(** The document-store sibling: [update] is one [replace_one] with
    [upsert=False], filtered by the identity. *)
Lemma mongo_update_never_upserts self e cs :
  Mongo.update self e (Backend true cs) =
  (Ok (), Backend true
            (cs ++ [Mongo.ReplaceOne
                      (Mongo.id_query self (Mongo.id_of (Mongo._mapper self) e))
                      (dict_set (Mongo.id_field (Mongo._mapper self))
                         (VAtom (Mongo.id_of (Mongo._mapper self) e))
                         (Mongo.to_document (Mongo._mapper self) e))
                      false])).
Proof. reflexivity. Qed.

(** The relational sibling: [update] is one [UPDATE ... WHERE id = eid],
    or nothing when the row has no column besides the identity. *)
Lemma sql_update_by_predicate self e cs id_col :
  Sql.column (Sql.table (Sql._mapper self)) (Sql.id_column (Sql._mapper self))
    = Ok id_col →
  dict_del (Sql.id_column (Sql._mapper self)) (Sql.to_row (Sql._mapper self) e) ≠ [] →
  Sql.update self e (Backend true cs) =
  (Ok (), Backend true
            (cs ++ [Sql.Execute
                      (Sql.UpdateStmt (Sql.t_name (Sql.table (Sql._mapper self)))
                         id_col (Sql.id_of (Sql._mapper self) e)
                         (dict_del (Sql.id_column (Sql._mapper self))
                            (Sql.to_row (Sql._mapper self) e)))])).
Proof.
  intros Hcol Hrow. unfold Sql.update, Sql._ensure_indexes. unfold_io. simpl.
  destruct (dict_del _ _) eqn:Hdel; [done|]. by rewrite Hcol.
Qed.

(** C5 (the memory backend departs from it): two [add]s of users with
    distinct identities and the same indexed [email] both succeed; both
    entities stay stored, and the index entry is re-pointed to the second
    one. *)
Theorem memory_add_accepts_collision :
  ∃ s1 s2,
    Memory.add users_repo (user 1 "a@x.org") = Ok s1 ∧
    Memory.add s1 (user 2 "a@x.org") = Ok s2 ∧
    Memory.get s2 (AInt 1) = Some (user 1 "a@x.org") ∧
    Memory.get s2 (AInt 2) = Some (user 2 "a@x.org") ∧
    attr "email" (user 1 "a@x.org") = attr "email" (user 2 "a@x.org") ∧
    Memory.get_by_index s2 "email" (AStr "a@x.org") = Some (user 2 "a@x.org").
Proof.
  do 2 eexists. split_and!; reflexivity.
Qed.

(** ** Stale index entries after [update] (C10) *)

(** C10 as stated fails for a falsy identity: with identity [0],
    [get_by_index] finds the index entry but its guard [if eid] rejects
    the identity, so neither the new nor the stale value yields the updated
    entity. *)
Lemma falsy_identity_hides_index_entries :
  ∃ s1 s2,
    Memory.add users_repo (user 0 "a@x.org") = Ok s1 ∧
    Memory.update s1 (user 0 "b@x.org") = Ok s2 ∧
    Memory.get s2 (AInt 0) = Some (user 0 "b@x.org") ∧
    Memory._indexes s2 !! "email"
      = Some {[ AStr "a@x.org" := AInt 0; AStr "b@x.org" := AInt 0 ]} ∧
    Memory.get_by_index s2 "email" (AStr "b@x.org") ≠ Some (user 0 "b@x.org") ∧
    Memory.get_by_index s2 "email" (AStr "a@x.org") ≠ Some (user 0 "b@x.org").
Proof.
  do 2 eexists. split_and!; try reflexivity; by vm_compute.
Qed.

(** C10, amended: for an entity whose identity is truthy, added with
    indexed value [v1] and then updated under the same identity to
    [v2 ≠ v1], [get_by_index] returns the updated entity for [v2] and for
    the stale [v1].  When the updated entity is itself truthy, [delete] of
    the identity then removes the entry for [v2] and no other entry of
    that index: the entry for [v1] stays, pointing at the identity that is
    gone, and [get_by_index] answers [None] for both values. *)
Theorem update_leaves_stale_index_entry
    (self : Memory.MemoryRepository) (e1 e2 : entity)
    (name : string) (ext : entity → atom) (v1 v2 : atom) :
  wf self →
  (name, ext) ∈ Memory._extractors self →
  Memory._id_getter self e1 = Memory._id_getter self e2 →
  truthy (Memory._id_getter self e2) = true →
  ext e1 = v1 → ext e2 = v2 → v1 ≠ v2 →
  ∃ s1 s2 idx2,
    Memory.add self e1 = Ok s1 ∧
    Memory.update s1 e2 = Ok s2 ∧
    Memory.get_by_index s2 name v2 = Some e2 ∧
    Memory.get_by_index s2 name v1 = Some e2 ∧
    Memory._indexes s2 !! name = Some idx2 ∧
    idx2 !! v1 = Some (Memory._id_getter self e2) ∧
    idx2 !! v2 = Some (Memory._id_getter self e2) ∧
    (entity_truthy e2 = true →
     ∃ s3,
       Memory.delete s2 (Memory._id_getter self e2) = Ok s3 ∧
       Memory._indexes s3 !! name = Some (base.delete v2 idx2) ∧
       Memory.get s3 (Memory._id_getter self e2) = None ∧
       Memory.get_by_index s3 name v1 = None ∧
       Memory.get_by_index s3 name v2 = None).
Proof.
  intros Hwf Hext Hid Htruthy Hv1 Hv2 Hne.
  set (i := Memory._id_getter self e2) in *.
  pose proof Hwf as (Hitems & Hnd & Hdom).
  assert (dict_get name (Memory._extractors self) = Some ext) as Hget
    by by apply dict_get_elem_NoDup.
  destruct (Hdom name) as [idx0 Hidx0].
  { apply list_elem_of_fmap. by exists (name, ext). }
  destruct (add_wf self e1 Hwf) as (s1 & Hadd & Hwf1).
  destruct (add_spec self e1 Hwf) as (ix1 & Hadd' & Hix1).
  rewrite Hadd' in Hadd. injection Hadd as <-.
  match type of Hwf1 with wf ?s => set (s1 := s) in * end.
  destruct (add_spec s1 e2 Hwf1) as (ix2 & Hupd & Hix2).
  match type of Hupd with _ = Ok ?s => set (s2 := s) in * end.
  assert (wf s2) as Hwf2.
  { destruct (add_wf s1 e2 Hwf1) as (s2' & Hs2' & Hwf2').
    rewrite Hupd in Hs2'. by injection Hs2' as <-. }
  assert (ix2 !! name = Some (<[v2 := i]> (<[v1 := i]> idx0))) as Hidx2.
  { rewrite Hix2. simpl. rewrite Hget. simpl. rewrite Hix1, Hget, Hidx0. simpl.
    by rewrite Hv1, Hv2, Hid. }
  assert (dict_get i (Memory._items s2) = Some e2) as Hitem.
  { simpl. apply dict_get_set_eq. }
  exists s1, s2, (<[v2 := i]> (<[v1 := i]> idx0)).
  split_and!; try done.
  - unfold Memory.get_by_index. simpl Memory._indexes. rewrite Hidx2.
    rewrite bool_decide_eq_false_2 by apply insert_non_empty.
    by rewrite lookup_insert_eq, Htruthy.
  - unfold Memory.get_by_index. simpl Memory._indexes. rewrite Hidx2.
    rewrite bool_decide_eq_false_2 by apply insert_non_empty.
    rewrite lookup_insert_ne, lookup_insert_eq, Htruthy; done.
  - rewrite lookup_insert_ne, lookup_insert_eq; done.
  - by rewrite lookup_insert_eq.
  - intros Htruthy2.
    destruct (delete_spec s2 i e2 Hwf2 Hitem Htruthy2) as (ix3 & Hdel & Hix3).
    assert (ix3 !! name = Some (base.delete v2 (<[v2 := i]> (<[v1 := i]> idx0))))
      as Hidx3.
    { rewrite Hix3. simpl Memory._extractors. rewrite Hget.
      simpl Memory._indexes. rewrite Hidx2. simpl.
      by rewrite Hv2, lookup_insert_eq, bool_decide_eq_true_2. }
    eexists. split; [exact Hdel|].
    assert (dict_get i (dict_del i (Memory._items s2)) = None) as Hgone.
    { apply dict_get_del_eq. by destruct Hwf2. }
    unfold Memory.get, Memory.get_by_index. simpl Memory._indexes.
    simpl Memory._items. rewrite Hidx3. split_and!; [done|done| |].
    + rewrite delete_insert_eq.
      case_bool_decide; [done|].
      rewrite lookup_delete_ne, lookup_insert_eq, Htruthy by done.
      exact Hgone.
    + case_bool_decide; [done|]. by rewrite lookup_delete_eq.
Qed.

Lemma update_leaves_stale_index_entry_witness :
  ∃ s1 s2 idx2,
    Memory.add users_repo (user 7 "a@x.org") = Ok s1 ∧
    Memory.update s1 (user 7 "b@x.org") = Ok s2 ∧
    Memory.get_by_index s2 "email" (AStr "b@x.org") = Some (user 7 "b@x.org") ∧
    Memory.get_by_index s2 "email" (AStr "a@x.org") = Some (user 7 "b@x.org") ∧
    Memory._indexes s2 !! "email" = Some idx2 ∧
    idx2 !! AStr "a@x.org" = Some (AInt 7) ∧
    idx2 !! AStr "b@x.org" = Some (AInt 7) ∧
    (entity_truthy (user 7 "b@x.org") = true →
     ∃ s3,
       Memory.delete s2 (AInt 7) = Ok s3 ∧
       Memory._indexes s3 !! "email" = Some (base.delete (AStr "b@x.org") idx2) ∧
       Memory.get s3 (AInt 7) = None ∧
       Memory.get_by_index s3 "email" (AStr "a@x.org") = None ∧
       Memory.get_by_index s3 "email" (AStr "b@x.org") = None).
Proof.
  apply (update_leaves_stale_index_entry users_repo
           (user 7 "a@x.org") (user 7 "b@x.org") "email" (attr "email")
           (AStr "a@x.org") (AStr "b@x.org")).
  - apply wf_init. simpl. apply NoDup_singleton.
  - apply list_elem_of_here.
  - reflexivity.
  - reflexivity.
  - reflexivity.
  - reflexivity.
  - discriminate.
Defined.

(** * Part III: further properties of the code *)

(** ** The memory repository: storing, finding and deleting *)

Lemma users_repo_wf : wf users_repo.
Proof. apply wf_init. simpl. apply NoDup_singleton. Qed.

Lemma orders_store_wf : wf orders_store.
Proof.
  split_and!.
  - apply (bool_decide_unpack _). vm_compute. exact I.
  - apply NoDup_nil_2.
  - intros name Hname. by apply elem_of_nil in Hname.
Qed.

Lemma dict_set_elem {K V} `{EqDecision K} (k k' : K) (v v' : V) d :
  (k', v') ∈ dict_set k v d → (k', v') = (k, v) ∨ (k', v') ∈ d.
Proof.
  induction d as [|[k0 v0] d IH]; simpl.
  - intros Hin. apply list_elem_of_singleton in Hin. by left.
  - case_decide; subst; rewrite !elem_of_cons; intros [Hin|Hin]; auto.
    destruct (IH Hin); auto.
Qed.

Lemma dict_del_elem {K V} `{EqDecision K} (k k' : K) (v' : V) d :
  (k', v') ∈ dict_del k d → (k', v') ∈ d.
Proof.
  induction d as [|[k0 v0] d IH]; simpl; [done|].
  case_decide; subst; rewrite !elem_of_cons; [auto|].
  intros [Hin|Hin]; auto.
Qed.

(** What [delete] leaves of the dictionary of items, whichever of its
    three paths it takes. *)
Lemma delete_items self i self' :
  Memory.delete self i = Ok self' →
  Memory._items self' = dict_del i (Memory._items self) ∧
  Memory._id_getter self' = Memory._id_getter self ∧
  Memory._extractors self' = Memory._extractors self.
Proof.
  unfold Memory.delete. intros Hdel.
  destruct (dict_get i (Memory._items self)) as [ent|];
    [destruct (entity_truthy ent)|].
  - destruct (Memory.unindex_entity _ _ _ _); [|done]. by injection Hdel as <-.
  - by injection Hdel as <-.
  - by injection Hdel as <-.
Qed.

(** X1: [add] (and [update], which has the same body) on a well-formed
    repository returns; afterwards [get] of the entity's identity returns
    the entity, and [get] of every other identity answers as before. *)
Theorem memory_add_then_get (self : Memory.MemoryRepository) (e : entity) :
  wf self →
  ∃ self',
    Memory.add self e = Ok self' ∧
    Memory.update self e = Ok self' ∧
    Memory.get self' (Memory._id_getter self e) = Some e ∧
    ∀ j, j ≠ Memory._id_getter self e → Memory.get self' j = Memory.get self j.
Proof.
  intros Hwf. destruct (add_spec self e Hwf) as (ix' & Hadd & _).
  eexists. split_and!; [exact Hadd|exact Hadd|..]; unfold Memory.get; simpl.
  - apply dict_get_set_eq.
  - intros j Hj. by apply dict_get_set_ne.
Qed.

Lemma memory_add_then_get_witness :
  ∃ self',
    Memory.add users_repo (user 7 "a@x.org") = Ok self' ∧
    Memory.update users_repo (user 7 "a@x.org") = Ok self' ∧
    Memory.get self' (Memory._id_getter users_repo (user 7 "a@x.org"))
    = Some (user 7 "a@x.org") ∧
    ∀ j, j ≠ Memory._id_getter users_repo (user 7 "a@x.org") →
         Memory.get self' j = Memory.get users_repo j.
Proof. apply (memory_add_then_get users_repo (user 7 "a@x.org")), users_repo_wf. Defined.

(** X2: [add] of an identity that is already stored replaces the entity
    in place: the identities keep their order and their number, so the
    entity keeps its position in [list]; a new identity goes to the end. *)
Theorem memory_add_keeps_order (self : Memory.MemoryRepository) (e : entity) :
  wf self →
  ∃ self',
    Memory.add self e = Ok self' ∧
    dict_keys (Memory._items self') =
      if Memory.get self (Memory._id_getter self e) is Some _
      then dict_keys (Memory._items self)
      else dict_keys (Memory._items self) ++ [Memory._id_getter self e].
Proof.
  intros Hwf. destruct (add_spec self e Hwf) as (ix' & Hadd & _).
  eexists. split; [exact Hadd|]. simpl. apply dict_keys_set.
Qed.

Lemma memory_add_keeps_order_witness :
  ∃ self',
    Memory.add orders_store (order 2 42 99) = Ok self' ∧
    dict_keys (Memory._items self') =
      if Memory.get orders_store (Memory._id_getter orders_store (order 2 42 99))
           is Some _
      then dict_keys (Memory._items orders_store)
      else dict_keys (Memory._items orders_store)
             ++ [Memory._id_getter orders_store (order 2 42 99)].
Proof.
  apply (memory_add_keeps_order orders_store (order 2 42 99)), orders_store_wf.
Defined.

(** X3: [delete] on a well-formed repository returns; afterwards [get] of
    the deleted identity answers [None], every other identity answers as
    before, and the repository is still well formed. *)
Theorem memory_delete_removes (self : Memory.MemoryRepository) (i : atom) :
  wf self →
  ∃ self',
    Memory.delete self i = Ok self' ∧
    wf self' ∧
    Memory.get self' i = None ∧
    ∀ j, j ≠ i → Memory.get self' j = Memory.get self j.
Proof.
  intros Hwf. destruct (delete_wf self i Hwf) as (self' & Hdel & Hwf').
  exists self'. split_and!; [done..| |].
  - destruct (delete_items self i self' Hdel) as (Hitems & _).
    unfold Memory.get. rewrite Hitems. apply dict_get_del_eq. by destruct Hwf.
  - intros j Hj. destruct (delete_items self i self' Hdel) as (Hitems & _).
    unfold Memory.get. rewrite Hitems. by apply dict_get_del_ne.
Qed.

Lemma memory_delete_removes_witness :
  ∃ self',
    Memory.delete users_repo (AInt 7) = Ok self' ∧
    wf self' ∧
    Memory.get self' (AInt 7) = None ∧
    ∀ j, j ≠ AInt 7 → Memory.get self' j = Memory.get users_repo j.
Proof. apply (memory_delete_removes users_repo (AInt 7)), users_repo_wf. Defined.

(** X4: [delete] is idempotent, and a no-op on an identity that is not
    stored: deleting again the identity just deleted returns the same
    repository, indexes included. *)
Theorem memory_delete_idempotent (self self1 : Memory.MemoryRepository) (i : atom) :
  wf self →
  Memory.delete self i = Ok self1 →
  Memory.delete self1 i = Ok self1 ∧
  (Memory.get self i = None → self1 = self).
Proof.
  intros Hwf Hdel.
  assert (∀ s, Memory.get s i = None → Memory.delete s i = Ok s) as Habsent.
  { intros s Hget. unfold Memory.delete. unfold Memory.get in Hget.
    rewrite Hget, dict_del_absent by done. by destruct s. }
  split.
  - apply Habsent. destruct (delete_items self i self1 Hdel) as (Hitems & _).
    unfold Memory.get. rewrite Hitems. apply dict_get_del_eq. by destruct Hwf.
  - intros Hget. rewrite (Habsent self Hget) in Hdel. by injection Hdel.
Qed.

Lemma memory_delete_idempotent_witness :
  Memory.delete
    {| Memory._id_getter := attr "id";
       Memory._items :=
         [(AInt 2, order 2 42 10); (AInt 3, order 3 43 15);
          (AInt 4, order 4 43 20); (AInt 5, order 5 44 25)];
       Memory._indexes := ∅; Memory._extractors := [] |} (AInt 1)
  = Ok {| Memory._id_getter := attr "id";
          Memory._items :=
            [(AInt 2, order 2 42 10); (AInt 3, order 3 43 15);
             (AInt 4, order 4 43 20); (AInt 5, order 5 44 25)];
          Memory._indexes := ∅; Memory._extractors := [] |} ∧
  (Memory.get orders_store (AInt 1) = None →
   {| Memory._id_getter := attr "id";
      Memory._items :=
        [(AInt 2, order 2 42 10); (AInt 3, order 3 43 15);
         (AInt 4, order 4 43 20); (AInt 5, order 5 44 25)];
      Memory._indexes := ∅; Memory._extractors := [] |} = orders_store).
Proof.
  apply (memory_delete_idempotent orders_store _ (AInt 1)).
  - exact orders_store_wf.
  - reflexivity.
Defined.

(** X5: [__init__] gives every extractor its index dictionary, and [add],
    [update] and [delete] keep it so.  With an identity getter and
    extractors that return a hashable scalar on every entity (which is
    what the types of [_id_getter] and [_extractors] say: a getter that
    raises, or returns a list, is outside this statement), every sequence
    of the three operations on the repository that [__init__] builds runs
    to its end, the subscript [self._indexes[name]] of their loops never
    raising [KeyError], and leaves the repository well formed. *)
Theorem memory_operations_never_raise (id_getter : entity → atom)
    (unique_indexes : list (string * (entity → atom))) (os : list op) :
  NoDup (dict_keys unique_indexes) →
  ∃ self, run_ops (Memory.__init__ id_getter unique_indexes) os = Ok self ∧ wf self.
Proof. intros Hnd. by apply run_ops_wf, wf_init. Qed.

Lemma memory_operations_never_raise_witness :
  ∃ self,
    run_ops (Memory.__init__ (attr "id") [("email", attr "email")])
      [Add (user 1 "a@x.org"); Update (user 1 "b@x.org"); Delete (AInt 1);
       Delete (AInt 2)] = Ok self ∧
    wf self.
Proof.
  apply (memory_operations_never_raise (attr "id") [("email", attr "email")]).
  simpl. apply NoDup_singleton.
Defined.

Lemma update_each_dom g exts ix ix' name :
  update_each g exts ix = Ok ix' → is_Some (ix' !! name) → is_Some (ix !! name).
Proof.
  revert ix. induction exts as [|[n ext] exts IH]; intros ix; simpl.
  - by intros [= ->].
  - destruct (ix !! n) as [idx|] eqn:Hidx; [|done].
    intros Hrun Hsome. specialize (IH _ Hrun Hsome).
    rewrite lookup_insert in IH. case_decide; subst; [by rewrite Hidx|done].
Qed.

(** What every operation keeps of a repository built by [__init__ g u]. *)
Lemma run_op_keeps g u self o self' :
  Memory._id_getter self = g ∧ Memory._extractors self = u ∧
  stored_under_identity self ∧ indexes_named self →
  run_op self o = Ok self' →
  Memory._id_getter self' = g ∧ Memory._extractors self' = u ∧
  stored_under_identity self' ∧ indexes_named self'.
Proof.
  intros (Hg & Hu & Hstored & Hnamed) Hrun.
  assert (∀ e s', Memory.add self e = Ok s' →
            Memory._id_getter s' = g ∧ Memory._extractors s' = u ∧
            stored_under_identity s' ∧ indexes_named s') as Hadd.
  { intros e s'. unfold Memory.add. rewrite index_entity_each.
    destruct (update_each _ _ _) as [ix'|] eqn:Hix; [|done].
    intros [= <-]. split_and!; [done..| |].
    - intros i e' Hin. simpl in *. apply dict_set_elem in Hin as [[= -> ->]|Hin];
        [done|by apply Hstored].
    - intros name Hname. simpl in *. apply Hnamed. by eapply update_each_dom. }
  destruct o as [e|e|i]; simpl in Hrun; [by eapply Hadd..|].
  destruct (delete_items self i self' Hrun) as (Hitems & Hg' & Hu').
  split_and!; [congruence..| |].
  - intros j e Hin. rewrite Hg', Hitems in *. apply dict_del_elem in Hin.
    by apply Hstored.
  - intros name Hname. rewrite Hu'. apply Hnamed.
    unfold Memory.delete in Hrun.
    destruct (dict_get i (Memory._items self)) as [ent|];
      [destruct (entity_truthy ent)|]; try (by injection Hrun as <-).
    rewrite unindex_entity_each in Hrun.
    destruct (update_each _ _ _) as [ix'|] eqn:Hix; [|done].
    injection Hrun as <-. by eapply update_each_dom.
Qed.

Lemma run_ops_keeps g u os :
  ∀ self self',
    Memory._id_getter self = g ∧ Memory._extractors self = u ∧
    stored_under_identity self ∧ indexes_named self →
    run_ops self os = Ok self' →
    Memory._id_getter self' = g ∧ Memory._extractors self' = u ∧
    stored_under_identity self' ∧ indexes_named self'.
Proof.
  induction os as [|o os IH]; intros self self' Hinv; simpl.
  - by intros [= <-].
  - destruct (run_op self o) as [self1|] eqn:Hop; [|done]. simpl.
    apply IH. by eapply run_op_keeps.
Qed.

Lemma init_keeps g u :
  Memory._id_getter (Memory.__init__ g u) = g ∧
  Memory._extractors (Memory.__init__ g u) = u ∧
  stored_under_identity (Memory.__init__ g u) ∧
  indexes_named (Memory.__init__ g u).
Proof.
  split_and!; [done..| |].
  - intros i e Hin. by apply elem_of_nil in Hin.
  - intros name [idx Hidx]. simpl in *.
    apply elem_of_list_to_map_2, list_elem_of_fmap in Hidx
      as ([n ext] & [= -> _] & Hin).
    apply list_elem_of_fmap. by exists (n, ext).
Qed.

(** What [__init__] rules out: on a repository whose extractor has no
    index dictionary, the loop of [add] raises [KeyError]. *)
Example add_without_index_dictionary :
  Memory.add {| Memory._id_getter := attr "id"; Memory._items := [];
                Memory._indexes := ∅;
                Memory._extractors := [("email", attr "email")] |}
    (user 1 "a@x.org")
  = Raise (KeyError "email").
Proof. vm_compute. reflexivity. Qed.

(** X6: whatever has been added, updated and deleted, an entity that
    [get] returns for an identity has that identity: entities are stored
    under their own identity only. *)
Theorem memory_get_returns_own_identity (id_getter : entity → atom)
    (unique_indexes : list (string * (entity → atom))) (os : list op)
    (self : Memory.MemoryRepository) (i : atom) (e : entity) :
  run_ops (Memory.__init__ id_getter unique_indexes) os = Ok self →
  Memory.get self i = Some e →
  id_getter e = i.
Proof.
  intros Hrun Hget.
  destruct (run_ops_keeps id_getter unique_indexes os _ _
              (init_keeps id_getter unique_indexes) Hrun)
    as (Hg & _ & Hstored & _).
  rewrite <- Hg. apply Hstored. by apply dict_get_Some_elem.
Qed.

Lemma memory_get_returns_own_identity_witness :
  attr "id" (user 1 "b@x.org") = AInt 1.
Proof.
  apply (memory_get_returns_own_identity (attr "id") [("email", attr "email")]
           [Add (user 1 "a@x.org"); Add (user 2 "c@x.org"); Update (user 1 "b@x.org")]
           {| Memory._id_getter := attr "id";
              Memory._items := [(AInt 1, user 1 "b@x.org"); (AInt 2, user 2 "c@x.org")];
              Memory._indexes :=
                {[ "email" := {[ AStr "a@x.org" := AInt 1; AStr "c@x.org" := AInt 2;
                                 AStr "b@x.org" := AInt 1 ]} ]};
              Memory._extractors := [("email", attr "email")] |}).
  - vm_compute. reflexivity.
  - reflexivity.
Defined.

(** X7: the lookup by index is lenient.  In the memory repository, in
    whatever state it has reached, an index name that is not among the
    extractors gives [None]; in the document-store repository an index
    name that is not among the mapper's unique fields gives [None] without
    a call on the driver. *)
Theorem unknown_index_is_not_found (index : string) :
  (∀ id_getter unique_indexes os self v,
     index ∉ dict_keys unique_indexes →
     run_ops (Memory.__init__ id_getter unique_indexes) os = Ok self →
     Memory.get_by_index self index v = None) ∧
  (∀ self v cs,
     dict_get index (Mongo.unique_fields (Mongo._mapper self)) = None →
     Mongo.get_by_index self index v (Backend true cs) = (Ok None, Backend true cs)).
Proof.
  split.
  - intros id_getter unique_indexes os self v Hindex Hrun.
    destruct (run_ops_keeps id_getter unique_indexes os _ _
                (init_keeps id_getter unique_indexes) Hrun)
      as (_ & Hu & _ & Hnamed).
    unfold Memory.get_by_index.
    destruct (Memory._indexes self !! index) as [idx|] eqn:Hidx; [|done].
    destruct Hindex. rewrite <- Hu. apply Hnamed. by rewrite Hidx.
  - intros self v cs Hindex. unfold Mongo.get_by_index, Mongo._ensure_indexes.
    unfold_io. simpl. by rewrite Hindex.
Qed.

(** X8: after [add] on a well-formed repository, [get_by_index] on each
    unique index finds the entity by its indexed value, provided its
    identity is truthy. *)
Theorem memory_add_then_get_by_index (self : Memory.MemoryRepository)
    (e : entity) (name : string) (ext : entity → atom) :
  wf self →
  (name, ext) ∈ Memory._extractors self →
  truthy (Memory._id_getter self e) = true →
  ∃ self',
    Memory.add self e = Ok self' ∧
    Memory.get_by_index self' name (ext e) = Some e.
Proof.
  intros Hwf Hext Htruthy. pose proof Hwf as (_ & Hnd & Hdom).
  destruct (add_spec self e Hwf) as (ix' & Hadd & Hix').
  eexists. split; [exact Hadd|].
  assert (dict_get name (Memory._extractors self) = Some ext) as Hget
    by by apply dict_get_elem_NoDup.
  destruct (Hdom name) as [idx Hidx].
  { apply list_elem_of_fmap. by exists (name, ext). }
  unfold Memory.get_by_index. simpl. rewrite Hix', Hget, Hidx. simpl.
  rewrite bool_decide_eq_false_2 by apply insert_non_empty.
  rewrite lookup_insert_eq, Htruthy. apply dict_get_set_eq.
Qed.

Lemma memory_add_then_get_by_index_witness :
  ∃ self',
    Memory.add users_repo (user 7 "a@x.org") = Ok self' ∧
    Memory.get_by_index self' "email" (attr "email" (user 7 "a@x.org"))
    = Some (user 7 "a@x.org").
Proof.
  apply (memory_add_then_get_by_index users_repo (user 7 "a@x.org")
           "email" (attr "email")).
  - exact users_repo_wf.
  - apply list_elem_of_here.
  - reflexivity.
Defined.

(** ** The memory repository: listing and filtering *)

Lemma insort_perm {A} (key : A → value) x l l' :
  Py.insort key x l = Ok l' → l' ≡ₚ x :: l.
Proof.
  revert l'. induction l as [|y l IH]; intros l'; simpl.
  { by intros [= <-]. }
  destruct (Py.lt (key y) (key x)) as [[|]|]; simpl; [|by intros [= <-]|done].
  destruct (Py.insort key x l) as [r|]; simpl; [|done].
  intros [= <-]. rewrite (IH r eq_refl). apply perm_swap.
Qed.

Lemma sort_asc_perm {A} (key : A → value) l l' :
  Py.sort_asc key l = Ok l' → l' ≡ₚ l.
Proof.
  revert l'. induction l as [|x l IH]; intros l'; simpl.
  { by intros [= <-]. }
  destruct (Py.sort_asc key l) as [s|]; simpl; [|done].
  intros Hins. apply insort_perm in Hins. by rewrite Hins, (IH s eq_refl).
Qed.

(** A sort that returns has rearranged the list, whatever the keys are. *)
Lemma sort_perm {A} (key : A → value) reverse l l' :
  Py.sort key reverse l = Ok l' → l' ≡ₚ l.
Proof.
  unfold Py.sort. destruct reverse; [|apply sort_asc_perm].
  destruct (Py.sort_asc key (rev l)) as [s|] eqn:Hs; simpl; [|done].
  intros [= <-]. apply sort_asc_perm in Hs.
  by rewrite <- Permutation_rev, Hs, <- Permutation_rev.
Qed.

Lemma slice_elem {A} lo hi (l : list A) x : x ∈ Py.slice lo hi l → x ∈ l.
Proof.
  unfold Py.slice. intros Hx.
  eapply elem_of_sublist; [|apply sublist_drop].
  eapply elem_of_sublist; [exact Hx|apply sublist_take].
Qed.

(** With bounds that are not negative, [l[offset : offset + limit]] skips
    [offset] elements and takes at most [limit]. *)
Lemma slice_window {A} (l : list A) (offset limit : Z) :
  0 ≤ offset → 0 ≤ limit →
  Py.slice (Some offset) (Some (offset + limit)) l
  = take (Z.to_nat limit) (drop (Z.to_nat offset) l).
Proof.
  intros Hoffset Hlimit. unfold Py.slice, Py.slice_index. simpl.
  destruct (Z.ltb_spec offset 0) as [?|_]; [lia|].
  destruct (Z.ltb_spec (offset + limit) 0) as [?|_]; [lia|].
  destruct (decide (Z.of_nat (length l) ≤ offset)) as [Hfar|Hnear].
  - rewrite (Z.min_r offset) by lia.
    rewrite !drop_ge by lia. by rewrite !take_nil.
  - rewrite (Z.min_l offset) by lia.
    destruct (decide (offset + limit ≤ Z.of_nat (length l))) as [Hin|Hout].
    + rewrite Z.min_l by lia. do 2 f_equal. lia.
    + rewrite Z.min_r by lia.
      rewrite !take_ge; [done|rewrite length_drop; lia..].
Qed.

(** X9: with an offset and a limit that are not negative, [list] returns
    at most [limit] entities, all of them stored; without [sort_by] it
    returns, in insertion order, the stored entities from position
    [offset] on, [limit] of them at most. *)
Theorem memory_list_window (self : Memory.MemoryRepository) (offset limit : Z) :
  0 ≤ offset → 0 ≤ limit →
  (∀ sort_by sort_desc l,
     Memory.list self offset limit sort_by sort_desc = Ok l →
     (length l ≤ Z.to_nat limit)%nat ∧
     ∀ e, e ∈ l → e ∈ dict_values (Memory._items self)) ∧
  (∀ sort_desc,
     Memory.list self offset limit None sort_desc
     = Ok (take (Z.to_nat limit)
             (drop (Z.to_nat offset) (dict_values (Memory._items self))))).
Proof.
  intros Hoffset Hlimit. split.
  - intros sort_by sort_desc l. unfold Memory.list.
    set (vals := dict_values (Memory._items self)).
    assert (∀ sorted, sorted ≡ₚ vals →
              Ok (Py.slice (Some offset) (Some (offset + limit)) sorted) = Ok l →
              (length l ≤ Z.to_nat limit)%nat ∧ ∀ e, e ∈ l → e ∈ vals) as Hslice.
    { intros sorted Hperm [= <-]. split.
      - rewrite slice_window by done. rewrite length_take. lia.
      - intros e He. rewrite <- Hperm. by eapply slice_elem. }
    destruct sort_by as [f|]; [|by apply Hslice].
    destruct (Py.sort _ sort_desc vals) as [sorted|] eqn:Hsort; [|done].
    apply Hslice. by eapply sort_perm.
  - intros sort_desc. unfold Memory.list. simpl. by rewrite slice_window.
Qed.

Lemma memory_list_window_witness :
  (∀ sort_by sort_desc l,
     Memory.list orders_store 1 2 sort_by sort_desc = Ok l →
     (length l ≤ Z.to_nat 2)%nat ∧
     ∀ e, e ∈ l → e ∈ dict_values (Memory._items orders_store)) ∧
  (∀ sort_desc,
     Memory.list orders_store 1 2 None sort_desc
     = Ok (take (Z.to_nat 2)
             (drop (Z.to_nat 1) (dict_values (Memory._items orders_store))))).
Proof. apply (memory_list_window orders_store 1 2); lia. Defined.

Lemma select_filter ents (crit : criteria) l :
  Memory.select ents crit = Ok l →
  l = filter (λ e, Memory.matches e crit = Ok true) ents.
Proof.
  revert l. induction ents as [|e ents IH]; intros l; simpl.
  { by intros [= <-]. }
  destruct (Memory.matches e crit) as [ok|] eqn:Hok; simpl; [|done].
  destruct (Memory.select ents crit) as [matched|]; simpl; [|done].
  intros [= <-]. rewrite filter_cons, Hok, <- (IH matched eq_refl).
  destruct ok; by case_decide.
Qed.

Lemma select_returns ents (crit : criteria) :
  (∀ e, e ∈ ents → ∃ ok, Memory.matches e crit = Ok ok) →
  ∃ l, Memory.select ents crit = Ok l.
Proof.
  induction ents as [|e ents IH]; intros Hok; simpl; [by eexists|].
  destruct (Hok e) as [ok ->]; [apply list_elem_of_here|]. simpl.
  destruct IH as [l ->]; [|by eexists].
  intros e' He'. apply Hok. by apply list_elem_of_further.
Qed.

(** X10: on a criteria set that is neither empty nor vacuous,
    [list_by_fields] without sorting and without window returns exactly the
    stored entities that satisfy every criterion, in insertion order; it
    returns whenever matching raises on no stored entity; and with any
    sorting and window, every entity it returns is stored and satisfies
    every criterion. *)
Theorem memory_list_by_fields_filters (self : Memory.MemoryRepository)
    (crit : criteria) :
  crit ≠ [] →
  existsb vacuous (dict_values crit) = false →
  (∀ l,
     Memory.list_by_fields self crit 0 None None false = Ok l →
     l = filter (λ e, Memory.matches e crit = Ok true)
           (dict_values (Memory._items self))) ∧
  ((∀ e, e ∈ dict_values (Memory._items self) →
         ∃ ok, Memory.matches e crit = Ok ok) →
   ∃ l, Memory.list_by_fields self crit 0 None None false = Ok l) ∧
  (∀ offset limit sort_by sort_desc l,
     Memory.list_by_fields self crit offset limit sort_by sort_desc = Ok l →
     ∀ e, e ∈ l →
          e ∈ dict_values (Memory._items self) ∧ Memory.matches e crit = Ok true).
Proof.
  intros Hcrit Hvac.
  set (vals := dict_values (Memory._items self)).
  assert (∀ offset limit sort_by sort_desc,
            Memory.list_by_fields self crit offset limit sort_by sort_desc =
            matched ← Memory.select vals crit;
            matched ← match sort_by with
                      | Some f =>
                          Py.sort (λ e, Memory._get_field_value e f) sort_desc matched
                      | None => Ok matched
                      end;
            Ok (match limit with
                | Some n =>
                    Py.slice None (Some n)
                      (if bool_decide (offset = 0) then matched
                       else Py.slice (Some offset) None matched)
                | None =>
                    if bool_decide (offset = 0) then matched
                    else Py.slice (Some offset) None matched
                end)) as Hbody.
  { intros. unfold Memory.list_by_fields. destruct crit; [done|]. by rewrite Hvac. }
  split_and!.
  - intros l. rewrite Hbody.
    destruct (Memory.select vals crit) as [matched|] eqn:Hsel; [|done].
    intros [= <-]. by apply select_filter.
  - intros Hok. rewrite Hbody.
    destruct (select_returns vals crit Hok) as [matched ->]. by eexists.
  - intros offset limit sort_by sort_desc l. rewrite Hbody.
    destruct (Memory.select vals crit) as [matched|] eqn:Hsel; [|done].
    apply select_filter in Hsel.
    change (Ok matched ≫= ?k) with (k matched). cbv beta.
    assert (∀ sorted, sorted ≡ₚ matched →
              Ok (match limit with
                  | Some n =>
                      Py.slice None (Some n)
                        (if bool_decide (offset = 0) then sorted
                         else Py.slice (Some offset) None sorted)
                  | None =>
                      if bool_decide (offset = 0) then sorted
                      else Py.slice (Some offset) None sorted
                  end) = Ok l →
              ∀ e, e ∈ l → e ∈ vals ∧ Memory.matches e crit = Ok true)
      as Hwindow.
    { intros sorted Hperm [= <-] e He.
      assert (e ∈ sorted) as Hsorted.
      { destruct limit; [apply slice_elem in He|];
          case_bool_decide; try done; by eapply slice_elem. }
      rewrite Hperm, Hsel in Hsorted. by apply list_elem_of_filter in Hsorted as [? ?]. }
    destruct sort_by as [f|]; [|by apply Hwindow].
    destruct (Py.sort _ sort_desc matched) as [sorted|] eqn:Hsort; [|done].
    apply Hwindow. by eapply sort_perm.
Qed.

Lemma memory_list_by_fields_filters_witness :
  (∀ l,
     Memory.list_by_fields orders_store [("customerId", CValue (AInt 42))]
       0 None None false = Ok l →
     l = filter (λ e, Memory.matches e [("customerId", CValue (AInt 42))] = Ok true)
           (dict_values (Memory._items orders_store))) ∧
  ((∀ e, e ∈ dict_values (Memory._items orders_store) →
         ∃ ok, Memory.matches e [("customerId", CValue (AInt 42))] = Ok ok) →
   ∃ l, Memory.list_by_fields orders_store [("customerId", CValue (AInt 42))]
          0 None None false = Ok l) ∧
  (∀ offset limit sort_by sort_desc l,
     Memory.list_by_fields orders_store [("customerId", CValue (AInt 42))]
       offset limit sort_by sort_desc = Ok l →
     ∀ e, e ∈ l →
          e ∈ dict_values (Memory._items orders_store) ∧
          Memory.matches e [("customerId", CValue (AInt 42))] = Ok true).
Proof.
  apply (memory_list_by_fields_filters orders_store
           [("customerId", CValue (AInt 42))]).
  - discriminate.
  - reflexivity.
Defined.

(** ** Range operators: validation and matching *)

Lemma check_items_well_formed items :
  (∀ op v, (op, v) ∈ items → ¬ malformed op v) → check_items items = Ok ().
Proof.
  induction items as [|[op v] items IH]; intros Hwf; [done|].
  assert (check_items items = Ok ()) as Hrest.
  { apply IH. intros op' v' Hin. apply Hwf. by apply list_elem_of_further. }
  assert (¬ malformed op v) as Hhead by apply Hwf, list_elem_of_here.
  simpl. destruct (String.eqb op "between") eqn:Hb.
  { apply String.eqb_eq in Hb as ->.
    destruct v as [a|l]; [destruct Hhead; left; by split|].
    case_bool_decide as Hl; [done|]. destruct Hhead. left. split; [done|].
    by intros lo hi [= ->]. }
  destruct (String.eqb op "in") eqn:Hi.
  { apply String.eqb_eq in Hi as ->.
    destruct v as [a|l]; [|done]. destruct Hhead. right. left. by split. }
  case_bool_decide as Hs; [done|]. destruct Hhead. right. right.
  apply String.eqb_neq in Hb, Hi. unfold range_operators, _SIMPLE_OPS in *.
  rewrite !elem_of_cons, elem_of_nil in *. tauto.
Qed.

(** X14: [iter_range_ops] accepts exactly the range dicts without a
    malformed entry, and gives an accepted dict back as it is; every other
    dict is a [ValueError]. *)
Theorem iter_range_ops_accepts_well_formed (d : list (string * value)) :
  (iter_range_ops d = Ok d ↔ ∀ op v, (op, v) ∈ d → ¬ malformed op v) ∧
  (∀ ops, iter_range_ops d = Ok ops → ops = d) ∧
  (iter_range_ops d = Ok d ∨ ∃ msg, iter_range_ops d = Raise (ValueError msg)).
Proof.
  split_and!.
  - split.
    + intros Hok op v Hin Hmal.
      destruct (iter_range_ops_malformed d op v Hin Hmal) as [msg Hbad]. congruence.
    + intros Hwf. apply check_items_well_formed in Hwf.
      destruct d as [|p d]; [done|]. unfold iter_range_ops. by rewrite Hwf.
  - intros ops Hok. destruct (iter_range_ops_cases d) as [[Hd _]|[msg Hbad]];
      congruence.
  - destruct (iter_range_ops_cases d) as [[Hd _]|Hbad]; auto.
Qed.

(** X11: what each range operator decides on an integer field: the
    comparisons are those of the integers, [between] includes both
    bounds, and [in] is membership. *)
Theorem range_operators_on_integers (x lo hi : Z) (l : list atom) :
  let field := VAtom (AInt x) in
  Memory._match_value field (CRange [("gte", VAtom (AInt lo))]) = Ok (lo <=? x) ∧
  Memory._match_value field (CRange [("gt", VAtom (AInt lo))]) = Ok (lo <? x) ∧
  Memory._match_value field (CRange [("lte", VAtom (AInt hi))]) = Ok (x <=? hi) ∧
  Memory._match_value field (CRange [("lt", VAtom (AInt hi))]) = Ok (x <? hi) ∧
  Memory._match_value field (CRange [("between", VList [AInt lo; AInt hi])])
  = Ok ((lo <=? x) && (x <=? hi)) ∧
  Memory._match_value field
    (CRange [("gte", VAtom (AInt lo)); ("lte", VAtom (AInt hi))])
  = Ok ((lo <=? x) && (x <=? hi)) ∧
  Memory._match_value field (CRange [("eq", VAtom (AInt lo))]) = Ok (x =? lo) ∧
  Memory._match_value field (CRange [("ne", VAtom (AInt lo))]) = Ok (negb (x =? lo)) ∧
  Memory._match_value field (CRange [("in", VList l)])
  = Ok (bool_decide (AInt x ∈ l)).
Proof.
  intros field. subst field.
  unfold Memory._match_value, iter_range_ops. simpl.
  unfold Py.lt, Py.le, Py.gt, Py.ge, Py.eqb. simpl.
  split_and!.
  - destruct (Z.compare_spec x lo), (Z.leb_spec lo x); simpl; try done; lia.
  - destruct (Z.compare_spec x lo), (Z.ltb_spec lo x); simpl; try done; lia.
  - destruct (Z.compare_spec x hi), (Z.leb_spec x hi); simpl; try done; lia.
  - destruct (Z.compare_spec x hi), (Z.ltb_spec x hi); simpl; try done; lia.
  - destruct (Z.compare_spec x lo), (Z.leb_spec lo x); simpl; try done; try lia;
      destruct (Z.compare_spec x hi), (Z.leb_spec x hi); simpl; try done; lia.
  - destruct (Z.compare_spec x lo), (Z.leb_spec lo x); simpl; try done; try lia;
      destruct (Z.compare_spec x hi), (Z.leb_spec x hi); simpl; try done; lia.
  - case_bool_decide as Heq; destruct (Z.eqb_spec x lo); try done; congruence.
  - case_bool_decide as Heq; destruct (Z.eqb_spec x lo); try done; congruence.
  - by destruct (bool_decide (AInt x ∈ l)).
Qed.

(** X12: [between] with [lo, hi] is [gte] of [lo] together with [lte] of
    [hi]: the memory matcher decides (or raises) the same on every field
    value, and the document-store translator builds the same operator
    dictionary. *)
Theorem between_is_gte_and_lte (lo hi : atom) :
  (∀ val,
     Memory._match_value val (CRange [("between", VList [lo; hi])]) =
     Memory._match_value val (CRange [("gte", VAtom lo); ("lte", VAtom hi)])) ∧
  Mongo._range_to_mongo [("between", VList [lo; hi])] =
  Mongo._range_to_mongo [("gte", VAtom lo); ("lte", VAtom hi)] ∧
  Mongo._range_to_mongo [("between", VList [lo; hi])] =
  Ok [("$gte", VAtom lo); ("$lte", VAtom hi)].
Proof.
  split_and!; [|done..].
  intros val. unfold Memory._match_value, iter_range_ops. simpl.
  case_bool_decide; [done|].
  destruct (Py.lt val (VAtom lo)) as [[|]|]; simpl; try done.
Qed.

(** A field that holds [None] fails every ordering operator without a
    comparison being made. *)
Lemma match_ops_none ops :
  check_items ops = Ok () →
  (∃ op v, (op, v) ∈ ops ∧ op ∈ ordering_operators) →
  Memory.match_ops none ops = Ok false.
Proof.
  induction ops as [|[op v] ops IH]; intros Hvalid (op' & v' & Hin & Hop').
  { by apply elem_of_nil in Hin. }
  simpl in Hvalid.
  assert (check_items ops = Ok () →
          (op ∉ ordering_operators) → Memory.match_ops none ops = Ok false) as Hnext.
  { intros Hok Hop. apply IH; [done|]. exists op', v'. split; [|done].
    apply elem_of_cons in Hin as [[= -> ->]|Hin]; done. }
  assert (check_items ops = Ok ()) as Hrest.
  { destruct (check_items_cases ops) as [Hok|[msg Hbad]]; [done|].
    rewrite Hbad in Hvalid.
    repeat first [ case_match | case_bool_decide ]; done. }
  specialize (Hnext Hrest). clear IH Hin Hop'.
  simpl. destruct (String.eqb op "between") eqn:Hb.
  { destruct v as [a|l]; [done|]. case_bool_decide as Hl; [|done].
    by apply length_two in Hl as (lo & hi & ->). }
  apply String.eqb_neq in Hb.
  assert (∀ s, op = s → s ∉ ordering_operators →
               Memory.match_ops none ops = Ok false) as Hplain.
  { intros s <-. apply Hnext. }
  op_chain; try done.
  - simpl in Hvalid. destruct v as [a|l]; [done|].
    destruct (bool_decide (ANone ∈ l)); [|done].
    apply (Hplain "in"); [done|]. unfold ordering_operators.
    rewrite !elem_of_cons, elem_of_nil. intros [?|[?|[?|[?|[?|[]]]]]]; done.
  - destruct (Py.eqb none v); [|done].
    apply (Hplain "eq"); [done|]. unfold ordering_operators.
    rewrite !elem_of_cons, elem_of_nil. intros [?|[?|[?|[?|[?|[]]]]]]; done.
  - destruct (Py.eqb none v); [done|].
    apply (Hplain "ne"); [done|]. unfold ordering_operators.
    rewrite !elem_of_cons, elem_of_nil. intros [?|[?|[?|[?|[?|[]]]]]]; done.
  - revert Hvalid.
    destruct (String.eqb_spec op "between") as [?|_]; [done|].
    destruct (String.eqb_spec op "in") as [?|_]; [done|].
    case_bool_decide as Hs; [|done]. intros _. apply simple_op_cases in Hs.
    by destruct Hs as [?|[?|[?|[?|[?|?]]]]].
Qed.

(** X13: an entity whose field is [None] (or absent) satisfies no valid
    range that holds an ordering operator, whatever the other operators
    are, and the matcher returns without comparing [None] (no
    [TypeError]). *)
Theorem none_fails_ordering_operators (d : list (string * value)) op v :
  iter_range_ops d = Ok d →
  (op, v) ∈ d →
  op ∈ ordering_operators →
  Memory._match_value none (CRange d) = Ok false.
Proof.
  intros Hvalid Hin Hop. unfold Memory._match_value. rewrite Hvalid. simpl.
  destruct d as [|p d]; [done|]. apply match_ops_none; [|by exists op, v].
  unfold iter_range_ops in Hvalid.
  by destruct (check_items (p :: d)) as [[]|].
Qed.

Lemma none_fails_ordering_operators_witness :
  Memory._match_value none
    (CRange [("ne", VAtom (AInt 3)); ("lte", VAtom (AInt 20))]) = Ok false.
Proof.
  apply (none_fails_ordering_operators
           [("ne", VAtom (AInt 3)); ("lte", VAtom (AInt 20))]
           "lte" (VAtom (AInt 20))).
  - reflexivity.
  - apply list_elem_of_further, list_elem_of_here.
  - unfold ordering_operators. rewrite !elem_of_cons. tauto.
Defined.

(** ** Index initialisation and writes of the driver-backed repositories *)

(** X15: the document-store repository creates its unique indexes on the
    first operation and never again: ensuring the indexes twice is
    ensuring them once, and two [add]s in a row send the [create_index]
    calls (one per unique field, if the indexes were not yet initialised)
    followed by the two [insert_one] calls, each document carrying the
    entity's identity under the mapper's identity field. *)
Theorem mongo_indexes_created_once (self : Mongo.MongoRepository)
    (e1 e2 : entity) (s : backend Mongo.call) :
  (_ ← Mongo._ensure_indexes self; Mongo._ensure_indexes self) s
  = Mongo._ensure_indexes self s ∧
  (_ ← Mongo.add self e1; Mongo.add self e2) s =
  (Ok (), Backend true
            (calls s ++ (if inited s then [] else index_calls self) ++
             [Mongo.InsertOne (stored_document (Mongo._mapper self) e1);
              Mongo.InsertOne (stored_document (Mongo._mapper self) e2)])) ∧
  dict_get (Mongo.id_field (Mongo._mapper self))
    (stored_document (Mongo._mapper self) e1)
  = Some (VAtom (Mongo.id_of (Mongo._mapper self) e1)).
Proof.
  split_and!.
  - unfold mbind, io_bind. rewrite mongo_ensure_indexes_spec.
    rewrite mongo_ensure_indexes_spec. simpl. by rewrite app_nil_r.
  - unfold Mongo.add, mbind, io_bind, invoke.
    rewrite mongo_ensure_indexes_spec. simpl.
    by rewrite <- !app_assoc.
  - apply dict_get_set_eq.
Qed.

Lemma sql_ensure_indexes_unregistered self cs :
  Sql._registry self !! Sql._entity_key self = None →
  Sql._ensure_indexes self (Backend false cs)
  = (Raise (KeyError (Sql._entity_key self)), Backend false cs).
Proof.
  intros Hkey.
  unfold Sql._ensure_indexes, Sql.init_indexes,
    Registry.build_fk_map_from_registry, Registry.get_entity_config.
  unfold_io. simpl. by rewrite Hkey.
Qed.

(** X16: a relational repository whose entity key is not registered
    cannot initialise its schema: every operation of a repository that is
    not yet initialised raises [KeyError] of the entity key, sends nothing
    to the engine and leaves the repository uninitialised, so that the
    next operation fails alike.  This holds of [list_by_fields] with empty
    criteria too. *)
Theorem sql_unregistered_entity_raises (self : Sql.SqlAlchemyRepository)
    (e : entity) (i : atom) (crit : criteria) (offset limit : Z)
    (olimit : option Z) (sort_by : option string) (sort_desc : bool)
    (cs : list Sql.call) :
  Sql._registry self !! Sql._entity_key self = None →
  let s := Backend false cs in
  Sql.add self e s = (Raise (KeyError (Sql._entity_key self)), s) ∧
  Sql.update self e s = (Raise (KeyError (Sql._entity_key self)), s) ∧
  Sql.delete self i s = (Raise (KeyError (Sql._entity_key self)), s) ∧
  Sql.list self offset limit sort_by sort_desc s
  = (Raise (KeyError (Sql._entity_key self)), s) ∧
  Sql.list_by_fields self crit offset olimit sort_by sort_desc s
  = (Raise (KeyError (Sql._entity_key self)), s).
Proof.
  intros Hkey s. subst s.
  unfold Sql.add, Sql.update, Sql.delete, Sql.list, Sql.list_by_fields.
  unfold mbind, io_bind.
  by rewrite !(sql_ensure_indexes_unregistered self cs Hkey).
Qed.

Lemma sql_unregistered_entity_raises_witness :
  Sql.list_by_fields orders_sql_repo [] 0 (Some 50) None false (Backend false [])
  = (Raise (KeyError "order"), Backend false []).
Proof.
  apply (sql_unregistered_entity_raises orders_sql_repo (order 1 42 5) (AInt 1)
           [] 0 50 (Some 50) None false []).
  reflexivity.
Defined.



(** X18: [update] of the driver-backed repositories never inserts.  Every
    call that the document-store [update] adds to those already made is an
    index creation or the one [replace_one] with [upsert=False], filtered
    by the entity's identity.  Every call that the relational [update]
    adds is the schema set-up or the one [UPDATE] filtered by the entity's
    identity, whose values are the row without the identity column; when
    the row has no other column, an initialised repository sends
    nothing. *)
Theorem driver_update_never_inserts :
  (∀ self e s c,
     c ∈ calls (Mongo.update self e s).2 →
     c ∈ calls s ∨ c ∈ index_calls self ∨
     c = Mongo.ReplaceOne
           (Mongo.id_query self (Mongo.id_of (Mongo._mapper self) e))
           (stored_document (Mongo._mapper self) e) false) ∧
  (∀ self e s c,
     c ∈ calls (Sql.update self e s).2 →
     c ∈ calls s ∨
     (∃ fk_map, c = Sql.CreateTableAndIndexes
                      (Sql.t_name (Sql.table (Sql._mapper self)))
                      (Sql.unique_columns (Sql._mapper self)) fk_map) ∨
     ∃ r, c = Sql.Execute
                (Sql.UpdateStmt (Sql.t_name (Sql.table (Sql._mapper self)))
                   (Sql.id_column (Sql._mapper self))
                   (Sql.id_of (Sql._mapper self) e) r) ∧
          r = dict_del (Sql.id_column (Sql._mapper self))
                (Sql.to_row (Sql._mapper self) e) ∧
          r ≠ []) ∧
  (∀ self e cs,
     dict_del (Sql.id_column (Sql._mapper self)) (Sql.to_row (Sql._mapper self) e)
     = [] →
     Sql.update self e (Backend true cs) = (Ok (), Backend true cs)).
Proof.
  split_and!.
  - intros self e s c. unfold Mongo.update, mbind, io_bind, invoke.
    rewrite mongo_ensure_indexes_spec. simpl.
    rewrite !elem_of_app, list_elem_of_singleton.
    destruct (inited s); [|tauto].
    rewrite elem_of_nil. tauto.
  - intros self e [ini cs] c.
    unfold Sql.update, Sql._ensure_indexes, Sql.init_indexes. unfold_io. simpl.
    unfold Sql.column.
    destruct ini; simpl.
    + destruct (dict_del _ _) as [|p r] eqn:Hrow; simpl; [by left|].
      case_bool_decide; simpl; [|by left].
      rewrite elem_of_app, list_elem_of_singleton. intros [Hc| ->]; [by left|].
      right. right. by eexists.
    + destruct (Registry.build_fk_map_from_registry _ _) as [fk_map|err];
        simpl; [|by left].
      destruct (dict_del _ _) as [|p r] eqn:Hrow; simpl.
      { rewrite elem_of_app, list_elem_of_singleton. intros [Hc| ->]; [by left|].
        right. left. by eexists. }
      case_bool_decide; simpl.
      * rewrite !elem_of_app, !list_elem_of_singleton.
        intros [[Hc| ->]| ->]; [by left|right; left; by eexists|].
        right. right. by eexists.
      * rewrite elem_of_app, list_elem_of_singleton. intros [Hc| ->]; [by left|].
        right. left. by eexists.
  - intros self e cs Hrow. unfold Sql.update, Sql._ensure_indexes. unfold_io.
    simpl. by rewrite Hrow.
Qed.

(** ** The mappers: what is stored is read back *)

Lemma dict_get_keep_fields (fns : list string) (k : string)
    (d : list (string * value)) :
  dict_get k (keep_fields fns d) = if decide (k ∈ fns) then dict_get k d else None.
Proof.
  unfold keep_fields. induction d as [|[k0 v0] d IH]; simpl.
  { by destruct (decide _). }
  rewrite filter_cons. simpl. destruct (decide (k0 ∈ fns)) as [Hk0|Hk0]; simpl.
  - destruct (decide (k = k0)) as [->|Hne]; [by rewrite decide_True|]. apply IH.
  - rewrite IH. destruct (decide (k ∈ fns)) as [Hk|Hk]; [|done].
    destruct (decide (k = k0)) as [->|Hne]; done.
Qed.

Lemma keep_fields_all (fns : list string) (d : list (string * value)) :
  dict_keys d ⊆ fns → keep_fields fns d = d.
Proof.
  unfold keep_fields, dict_keys. induction d as [|[k0 v0] d IH]; csimpl; [done|].
  intros Hsub. rewrite filter_cons. simpl. rewrite decide_True.
  - f_equal. apply IH. intros x Hx. apply Hsub, elem_of_cons. by right.
  - apply Hsub, elem_of_cons. by left.
Qed.

(** X19: the document that the document-store repository stores for a
    dataclass instance is read back by [from_document] as an instance with
    the same attribute values and the same identity, provided the mapper's
    identity field is not the name of another attribute. *)
Theorem mongo_document_round_trip (field_names : list string)
    (coll id_field : string) (uniq : list (string * string))
    (e : entity) (a : atom) :
  let m := DataclassMapper field_names coll id_field uniq in
  NoDup (dict_keys (e_fields e)) →
  dict_keys (e_fields e) ⊆ field_names →
  dict_get "id" (e_fields e) = Some (VAtom a) →
  id_field ∉ dict_keys (dict_del "id" (e_fields e)) →
  same_attributes e (Mongo.from_document m (stored_document m e)) ∧
  Mongo.id_of m (Mongo.from_document m (stored_document m e)) = Mongo.id_of m e.
Proof.
  intros m Hnd Hkeys Hid Hclash.
  assert (Mongo.to_document m e = dict_del "id" (e_fields e)) as Hdoc.
  { apply keep_fields_all. etrans; [apply dict_keys_del_subseteq|done]. }
  assert (Mongo.id_of m e = a) as Ha by (simpl; unfold attr; by rewrite Hid).
  unfold stored_document. rewrite Hdoc, Ha.
  set (doc := dict_set id_field (VAtom a) (dict_del "id" (e_fields e))).
  assert (NoDup (dict_keys doc)) as Hdocnd by by apply dict_set_NoDup, dict_del_NoDup.
  assert ("id" ∈ field_names) as Hidf.
  { apply Hkeys. apply dict_get_Some_elem in Hid. unfold dict_keys.
    apply list_elem_of_fmap. by exists ("id", VAtom a). }
  assert (∀ name,
            dict_get name (e_fields (Mongo.from_document m doc)) =
            if decide (name = "id") then Some (VAtom a)
            else dict_get name (e_fields e)) as Hget.
  { intros name.
    change (e_fields (Mongo.from_document m doc)) with
      (keep_fields field_names
         (dict_set "id" (default none (dict_get id_field doc))
            (dict_del id_field doc))).
    rewrite dict_get_keep_fields. unfold doc at 1. rewrite dict_get_set_eq.
    simpl default.
    destruct (decide (name = "id")) as [->|Hname].
    { by rewrite decide_True, dict_get_set_eq. }
    destruct (decide (name ∈ field_names)) as [Hin|Hout].
    - rewrite dict_get_set_ne by done.
      destruct (decide (name = id_field)) as [->|Hne].
      + rewrite dict_get_del_eq by done.
        rewrite <- (dict_get_del_ne "id" id_field) by done.
        symmetry. by apply dict_get_not_in_keys.
      + rewrite dict_get_del_ne by done. unfold doc.
        rewrite dict_get_set_ne by done. by apply dict_get_del_ne.
    - symmetry. apply dict_get_not_in_keys. intros Hin. by apply Hout, Hkeys. }
  split.
  - intros name. unfold Memory._get_field_value. rewrite Hget.
    destruct (decide (name = "id")) as [->|]; [by rewrite Hid|done].
  - simpl Mongo.id_of. unfold attr. by rewrite Hget, Hid.
Qed.

Lemma mongo_document_round_trip_witness :
  same_attributes (user 1 "ann@example.org")
    (Mongo.from_document (Mongo._mapper users_mongo_repo)
       (stored_document (Mongo._mapper users_mongo_repo)
          (user 1 "ann@example.org"))) ∧
  Mongo.id_of (Mongo._mapper users_mongo_repo)
    (Mongo.from_document (Mongo._mapper users_mongo_repo)
       (stored_document (Mongo._mapper users_mongo_repo)
          (user 1 "ann@example.org")))
  = Mongo.id_of (Mongo._mapper users_mongo_repo) (user 1 "ann@example.org").
Proof.
  apply (mongo_document_round_trip ["id"; "email"] "users" "_id"
           [("email", "email")] (user 1 "ann@example.org") (AInt 1)).
  - apply (bool_decide_unpack _). vm_compute. exact I.
  - apply (bool_decide_unpack _). vm_compute. exact I.
  - reflexivity.
  - apply (bool_decide_unpack _). vm_compute. exact I.
Defined.

(** X20: for a dataclass instance whose attributes hold [None], integers,
    strings or lists of them (an [Enum] member or a date, which [to_row]
    converts and [from_row] does not convert back, is outside this
    statement), the row that the relational repository inserts is read
    back by [from_row] as an instance with the same attribute values,
    provided the identity column is ["id"] or is not the name of an
    attribute. *)
Theorem sql_row_round_trip (entity_name : string) (field_names : list string)
    (table_name id_column : string) (uniq : list (string * string))
    (e : entity) (a : atom) :
  let m := SqlDataclassMapper entity_name field_names table_name id_column uniq in
  dict_keys (e_fields e) ⊆ field_names →
  dict_get "id" (e_fields e) = Some (VAtom a) →
  id_column = "id" ∨ id_column ∉ field_names →
  same_attributes e (Sql.from_row m (stored_row m e)).
Proof.
  intros m Hkeys Hid Hcol name.
  assert (Sql.id_of m e = a) as Ha by (simpl; unfold attr; by rewrite Hid).
  unfold stored_row. rewrite Ha.
  change (Sql.to_row m e) with (e_fields e).
  change (Sql.id_column m) with id_column.
  set (r := dict_set id_column (VAtom a) (e_fields e)).
  assert (is_Some (dict_get "id" r)) as [v Hv].
  { unfold r. destruct (decide (id_column = "id")) as [->|Hne].
    - rewrite dict_get_set_eq. eauto.
    - rewrite dict_get_set_ne by done. rewrite Hid. eauto. }
  unfold Memory._get_field_value.
  change (e_fields (Sql.from_row m r)) with
    (keep_fields field_names
       (match dict_get "id" r, dict_get id_column r with
        | None, Some v => dict_set "id" v r
        | _, _ => r
        end)).
  rewrite Hv, dict_get_keep_fields.
  destruct (decide (name ∈ field_names)) as [Hin|Hout].
  - unfold r. destruct (decide (id_column = name)) as [<-|Hne].
    + rewrite dict_get_set_eq. destruct Hcol as [->|Hcol]; [by rewrite Hid|done].
    + by rewrite dict_get_set_ne.
  - rewrite (dict_get_not_in_keys name (e_fields e)); [done|].
    intros Hin. by apply Hout, Hkeys.
Qed.

Lemma sql_row_round_trip_witness :
  same_attributes (order 1 42 5)
    (Sql.from_row orders_sql (stored_row orders_sql (order 1 42 5))).
Proof.
  apply (sql_row_round_trip "Order" order_fields "orders" "id" []
           (order 1 42 5) (AInt 1)).
  - apply (bool_decide_unpack _). vm_compute. exact I.
  - reflexivity.
  - by left.
Defined.

(** ** Population: what it returns and what it leaves alone *)

Lemma returns_bind {A B} (m : result A) (k : A → result B) :
  returns m → (∀ a, m = Ok a → returns (k a)) → returns (m ≫= k).
Proof. intros [a ->] Hk. by apply Hk. Qed.

Lemma returns_fmap {A B} (f : A → B) (m : result A) :
  returns m → returns (f <$> m).
Proof. intros [a ->]. by eexists. Qed.

Section population_returns.
Import Registry Populating.

Variable nested_populate :
  string → entity → Datatypes.list string → result (Datatypes.list (string * out)).
Variable resolve : string → result Repository.

Lemma child_returns tgt child_includes ref :
  (child_includes ≠ [] → returns (nested_populate tgt ref child_includes)) →
  returns (child nested_populate tgt child_includes ref).
Proof.
  unfold child. destruct child_includes as [|inc rest]; [by eexists|].
  intros Hrec. by apply returns_fmap, Hrec.
Qed.

Lemma collect_returns repo by' tgt child_includes seq acc :
  (∀ ref, child_includes ≠ [] →
          returns (nested_populate tgt ref child_includes)) →
  returns (collect nested_populate repo by' tgt child_includes seq acc).
Proof.
  intros Hrec. revert acc.
  induction seq as [|v seq IH]; intros acc; simpl; [by eexists|].
  destruct (lookup_ref repo by' v) as [ref|]; [|apply IH].
  apply returns_bind; [by apply child_returns, Hrec|]. intros d _. apply IH.
Qed.

Lemma populate_root_returns rels nested item f base :
  (∀ r, rels !! f = Some r →
        returns (resolve (target r)) ∧
        ∀ ref, default [] (nested !! f) ≠ [] →
               returns (nested_populate (target r) ref (default [] (nested !! f)))) →
  returns (populate_root nested_populate resolve rels nested item f base).
Proof.
  intros Hrec. destruct (rels !! f) as [r|] eqn:Hr.
  - destruct (Hrec r eq_refl) as [Hres Hnested].
    rewrite (populate_root_eq _ _ _ _ _ f r base Hr).
    apply returns_bind; [done|]. intros repo _.
    apply returns_bind; [|by eexists]. unfold root_value.
    assert (returns
              (OList <$> collect nested_populate repo (default "id" (by_ r))
                           (target r) (default [] (nested !! f))
                           (as_seq (read_local item base (local_field r))) []))
      as Hmany.
    { apply returns_fmap, collect_returns, Hnested. }
    assert (returns
              match lookup_ref repo (default "id" (by_ r))
                      (read_local item base (local_field r)) with
              | Some ref => child nested_populate (target r)
                              (default [] (nested !! f)) ref
              | None => Ok (OVal none)
              end) as Hone.
    { destruct (lookup_ref _ _ _) as [ref|]; [|by eexists].
      apply child_returns, Hnested. }
    revert Hmany Hone.
    generalize (read_local item base (local_field r)). intros val Hmany Hone.
    destruct val as [[[| |]|]| | |], (default false (many r)); try done;
      by eexists.
  - unfold populate_root. rewrite Hr. by eexists.
Qed.

Lemma populate_roots_returns rels nested item roots base :
  (∀ f r, rels !! f = Some r →
          returns (resolve (target r)) ∧
          ∀ ref, default [] (nested !! f) ≠ [] →
                 returns (nested_populate (target r) ref
                            (default [] (nested !! f)))) →
  returns (populate_roots nested_populate resolve rels nested item roots base).
Proof.
  intros Hrec. revert base.
  induction roots as [|f roots IH]; intros base; simpl; [by eexists|].
  apply returns_bind; [apply populate_root_returns, Hrec|]. intros base' _.
  apply IH.
Qed.

Lemma populate_roots_no_relation rels nested item roots base :
  (∀ f, f ∈ roots → rels !! f = None) →
  populate_roots nested_populate resolve rels nested item roots base = Ok base.
Proof.
  induction roots as [|f roots IH]; intros Hnone; simpl; [done|].
  unfold populate_root at 1. rewrite (Hnone f) by apply list_elem_of_here.
  simpl. apply IH. intros g Hg. by apply Hnone, list_elem_of_further.
Qed.

End population_returns.

(** X21: population returns a dictionary, whatever the stored references
    are (dangling ones and cycles included): when the entity key is
    registered, the target of every relation of the registry is registered
    and has a repository (whose lookups answer, as those of [Repository]
    do), and the call stack is deeper than the longest include path,
    [_populate] raises nothing. *)
Theorem population_returns (depth : nat) (reg : Registry.registry)
    (resolve : string → result Populating.Repository)
    (key : string) (item : entity) (include : list string) :
  targets_known reg resolve →
  is_Some (reg !! key) →
  (∀ inc, inc ∈ include → (String.length inc ≤ depth)%nat) →
  returns (Populating._populate (S depth) reg resolve key item include).
Proof.
  intros Hknown. revert key item include.
  induction depth as [|depth IH]; intros key item include [cfg Hcfg] Hlen; simpl;
    unfold Populating.populate_body, Registry.get_entity_config.
  all: rewrite Hcfg; simpl.
  all: destruct (Populating.split_includes include) as [roots nested] eqn:Hsplit.
  all: apply populate_roots_returns.
  all: intros f r Hr; destruct (Hknown key cfg f r Hcfg Hr) as [Hreg Hres].
  all: split; [done|]; intros ref Hchildren.
  all: destruct (nested !! f) as [rests|] eqn:Hrests; [|done]; simpl in *.
  all: destruct rests as [|rest rests]; [done|].
  all: destruct (split_includes_shorter include f (rest :: rests) rest)
         as (inc & Hinc & Hshorter);
         [by rewrite Hsplit|apply list_elem_of_here|].
  - specialize (Hlen inc Hinc). lia.
  - apply IH; [done|]. intros rest' Hrest'.
    destruct (split_includes_shorter include f (rest :: rests) rest')
      as (inc' & Hinc' & Hshorter'); [by rewrite Hsplit|done|].
    specialize (Hlen inc' Hinc'). lia.
Qed.

Lemma population_returns_witness :
  returns (Populating._populate 7 blog_registry blog_resolve "post" post
             ["tags"; "author"]).
Proof.
  apply (population_returns 6 blog_registry blog_resolve "post" post
           ["tags"; "author"]).
  - intros key cfg f r Hkey Hr.
    unfold blog_registry, Registry.register_entity in Hkey.
    apply lookup_insert_Some in Hkey as [[<- <-]|[_ Hkey]].
    { simpl in Hr. apply lookup_insert_Some in Hr as [[<- <-]|[_ Hr]].
      { split; [|by eexists]. eexists. vm_compute. reflexivity. }
      apply lookup_singleton_Some in Hr as [<- <-].
      split; [|by eexists]. eexists. vm_compute. reflexivity. }
    apply lookup_insert_Some in Hkey as [[<- <-]|[_ Hkey]]; [done|].
    apply lookup_insert_Some in Hkey as [[<- <-]|[_ Hkey]]; done.
  - eexists. vm_compute. reflexivity.
  - intros inc Hinc. apply elem_of_cons in Hinc as [->|Hinc]; [simpl; lia|].
    apply list_elem_of_singleton in Hinc as ->. simpl. lia.
Defined.

(** X22: includes that name no relation of the entity change nothing:
    when no root of the include paths is a relation of the registered
    entity (no include at all, or an entity without relations, among
    others), [_populate] returns the entity's own dictionary and [resolve]
    is not consulted; when the entity key is not registered it raises
    [KeyError] of the key, even with no include. *)
Theorem populate_without_relations (depth : nat) (reg : Registry.registry)
    (resolve : string → result Populating.Repository)
    (key : string) (item : entity) (include : list string) :
  (∀ cfg f, reg !! key = Some cfg →
            f ∈ (Populating.split_includes include).1 →
            default ∅ (Registry.relations cfg) !! f = None) →
  Populating._populate (S depth) reg resolve key item include =
  match reg !! key with
  | Some _ => Ok (Populating._to_dict item)
  | None => Raise (KeyError key)
  end.
Proof.
  intros Hnone. simpl.
  unfold Populating.populate_body, Registry.get_entity_config.
  destruct (reg !! key) as [cfg|] eqn:Hcfg; [|done]. simpl.
  destruct (Populating.split_includes include) as [roots nested] eqn:Hsplit.
  apply populate_roots_no_relation. intros f Hf.
  apply (Hnone cfg f eq_refl). simpl. by apply elem_of_elements.
Qed.

Lemma populate_without_relations_witness :
  Populating._populate 1 blog_registry blog_resolve "tag" (tag 1 "rocq")
    ["posts"; "posts.author"]
  = Ok (Populating._to_dict (tag 1 "rocq")).
Proof.
  apply (populate_without_relations 0 blog_registry blog_resolve "tag"
           (tag 1 "rocq") ["posts"; "posts.author"]).
  intros cfg f Hcfg _.
  assert (blog_registry !! "tag"
          = Some {| Registry.collection := Some "tags";
                    Registry.relations := None |}) as Htag
    by (vm_compute; reflexivity).
  rewrite Htag in Hcfg. injection Hcfg as <-. apply lookup_empty.
Defined.

(** X23: population only writes under the roots of the include paths:
    every other key of the returned dictionary holds what the entity's own
    dictionary holds. *)
Theorem population_keeps_other_fields (depth : nat) (reg : Registry.registry)
    (resolve : string → result Populating.Repository)
    (key : string) (item : entity) (include : list string)
    (d : list (string * Populating.out)) (k : string) :
  Populating._populate depth reg resolve key item include = Ok d →
  k ∉ (Populating.split_includes include).1 →
  dict_get k d = dict_get k (Populating._to_dict item).
Proof.
  intros Hrun Hk. destruct depth as [|depth]; [done|]. simpl in Hrun.
  unfold Populating.populate_body in Hrun.
  destruct (Registry.get_entity_config reg key) as [cfg|]; [|done].
  simpl in Hrun.
  destruct (Populating.split_includes include) as [roots nested]. simpl in Hk.
  eapply populate_roots_frame; [exact Hrun|]. by rewrite elem_of_elements.
Qed.

Lemma population_keeps_other_fields_witness :
  ∃ d,
    Populating._populate 1 blog_registry blog_resolve "post" post
      ["tags"; "author"] = Ok d ∧
    dict_get "tagIds" d = Some (Populating.OVal (VList [AInt 1; AInt 2; AInt 3])).
Proof.
  eexists. split; [vm_compute; reflexivity|].
  match goal with |- dict_get _ ?res = _ =>
    assert (Populating._populate 1 blog_registry blog_resolve "post" post
              ["tags"; "author"] = Ok res) as Hrun by (vm_compute; reflexivity)
  end.
  rewrite (population_keeps_other_fields 1 blog_registry blog_resolve "post" post
             ["tags"; "author"] _ "tagIds" Hrun); [reflexivity|].
  apply (bool_decide_unpack _). vm_compute. exact I.
Defined.

(** X24: a relation whose local field is [None] or absent is populated
    without a lookup: the key of the relation holds the empty list for a
    [many] relation and [None] for a single-valued one, whatever the
    target repository holds (no other root being named like the local
    field). *)
Theorem population_of_absent_reference (depth : nat) (reg : Registry.registry)
    (resolve : string → result Populating.Repository)
    (key : string) (item : entity) (include : list string)
    (cfg : Registry.EntityConfig) (f : string) (r : Registry.Relation)
    (d : list (string * Populating.out)) :
  let rels := default ∅ (Registry.relations cfg) in
  let roots := (Populating.split_includes include).1 in
  Registry.get_entity_config reg key = Ok cfg →
  rels !! f = Some r →
  f ∈ roots →
  (∀ g, g ∈ roots → g ≠ f → g ≠ Registry.local_field r) →
  Populating.read_local item (Populating._to_dict item) (Registry.local_field r)
  = Populating.OVal none →
  Populating._populate (S depth) reg resolve key item include = Ok d →
  dict_get f d =
  Some (if default false (Registry.many r) then Populating.OList []
        else Populating.OVal none).
Proof.
  intros rels roots Hcfg Hr Hf Hother Hval Hrun. simpl in Hrun.
  unfold Populating.populate_body in Hrun. rewrite Hcfg in Hrun. simpl in Hrun.
  subst roots.
  destruct (Populating.split_includes include) as [roots nested]. simpl in *.
  destruct (populate_roots_at (Populating._populate depth reg resolve) resolve
              rels nested item f r (elements roots) (Populating._to_dict item) d)
    as (base1 & Hstep & Hget);
    [done|apply NoDup_elements|by apply elem_of_elements|..|done|].
  { intros g Hg. apply Hother. by apply elem_of_elements. }
  rewrite (populate_root_eq _ _ _ _ _ f r _ Hr) in Hstep.
  destruct (resolve (Registry.target r)) as [repo|]; [|done]. simpl in Hstep.
  rewrite Hval in Hstep. simpl in Hstep. injection Hstep as <-.
  rewrite Hget. apply dict_get_set_eq.
Qed.

Lemma population_of_absent_reference_witness :
  ∃ d,
    Populating._populate 1 blog_registry blog_resolve "post" draft
      ["tags"; "author"] = Ok d ∧
    dict_get "tags" d = Some (Populating.OList []).
Proof.
  eexists. split; [vm_compute; reflexivity|].
  match goal with |- dict_get _ ?res = _ =>
    assert (Populating._populate 1 blog_registry blog_resolve "post" draft
              ["tags"; "author"] = Ok res) as Hrun by (vm_compute; reflexivity)
  end.
  pose proof (population_of_absent_reference 0 blog_registry blog_resolve
                "post" draft ["tags"; "author"]
                {| Registry.collection := Some "posts";
                   Registry.relations := Some
                     {[ "tags" := {| Registry.local_field := "tagIds";
                                     Registry.target := "tag";
                                     Registry.by_ := None;
                                     Registry.many := Some true |};
                        "author" := {| Registry.local_field := "authorId";
                                       Registry.target := "user";
                                       Registry.by_ := None;
                                       Registry.many := None |} ]} |}
                "tags"
                {| Registry.local_field := "tagIds"; Registry.target := "tag";
                   Registry.by_ := None; Registry.many := Some true |}) as Hthm.
  cbv zeta in Hthm. apply Hthm.
  - vm_compute. reflexivity.
  - vm_compute. reflexivity.
  - apply (bool_decide_unpack _). vm_compute. exact I.
  - intros g Hg _ ->. revert Hg. apply (bool_decide_unpack _). vm_compute. exact I.
  - reflexivity.
  - exact Hrun.
Defined.

(** *** Dotted include paths *)







(** ** The memory repository: [delete] undoes [add] *)

Lemma dict_del_set_absent {K V} `{EqDecision K} (k : K) (v : V) d :
  dict_get k d = None → dict_del k (dict_set k v d) = d.
Proof.
  induction d as [|[k0 v0] d IH]; simpl.
  - intros _. by rewrite decide_True.
  - destruct (decide (k = k0)) as [->|Hne]; [done|]. intros Hd. simpl.
    rewrite decide_False by done. by rewrite IH.
Qed.

(** X26: on a well-formed repository, [add] of a truthy entity whose
    identity is not stored and whose indexed values are not yet in the
    indexes, followed by [delete] of its identity, gives the repository
    back as it was: the entity is gone and no index entry is left
    behind. *)
Theorem memory_delete_undoes_add (self : Memory.MemoryRepository) (e : entity) :
  wf self →
  entity_truthy e = true →
  Memory.get self (Memory._id_getter self e) = None →
  (∀ name ext idx,
     (name, ext) ∈ Memory._extractors self →
     Memory._indexes self !! name = Some idx → idx !! ext e = None) →
  ∃ self1,
    Memory.add self e = Ok self1 ∧
    Memory.delete self1 (Memory._id_getter self e) = Ok self.
Proof.
  intros Hwf Htruthy Hfresh Hvals. pose proof Hwf as (Hitems & Hnd & Hdom).
  destruct (add_spec self e Hwf) as (ix1 & Hadd & Hix1).
  destruct (add_wf self e Hwf) as (self1 & Hadd1 & Hwf1).
  rewrite Hadd in Hadd1. injection Hadd1 as Hself1.
  exists self1. split; [by rewrite Hadd, Hself1|].
  destruct (delete_spec self1 (Memory._id_getter self e) e Hwf1)
    as (ix2 & Hdel & Hix2).
  { subst self1. simpl. apply dict_get_set_eq. }
  { done. }
  rewrite Hdel. subst self1. simpl in *. unfold Memory.get in Hfresh.
  rewrite dict_del_set_absent by done.
  destruct self as [g items ixs exts]. simpl in *. do 2 f_equal.
  apply map_eq. intros name. rewrite Hix2, Hix1.
  destruct (dict_get name exts) as [ext|] eqn:Hext; [|done].
  apply dict_get_Some_elem in Hext.
  destruct (Hdom name) as [idx Hidx].
  { apply list_elem_of_fmap. by exists (name, ext). }
  rewrite Hidx. simpl. rewrite lookup_insert_eq. simpl.
  rewrite bool_decide_eq_true_2 by done.
  f_equal. apply delete_insert_id. by eapply Hvals.
Qed.

Lemma memory_delete_undoes_add_witness :
  ∃ self1,
    Memory.add users_repo (user 7 "a@x.org") = Ok self1 ∧
    Memory.delete self1 (Memory._id_getter users_repo (user 7 "a@x.org"))
    = Ok users_repo.
Proof.
  apply (memory_delete_undoes_add users_repo (user 7 "a@x.org")).
  - exact users_repo_wf.
  - reflexivity.
  - reflexivity.
  - intros name ext idx Hin Hidx.
    apply list_elem_of_singleton in Hin. injection Hin as -> ->.
    unfold users_repo, Memory.__init__ in Hidx. simpl in Hidx.
    rewrite lookup_insert_eq in Hidx. injection Hidx as <-.
    apply lookup_empty.
Defined.

(** ** The registry: foreign keys *)

Lemma get_target_table_name_Ok reg t c :
  Registry.get_target_table_name reg t = Ok c ↔
  ∃ tcfg, reg !! t = Some tcfg ∧ Registry.collection tcfg = Some c.
Proof.
  unfold Registry.get_target_table_name, Registry.get_entity_config.
  destruct (reg !! t) as [tcfg|]; simpl.
  - destruct (Registry.collection tcfg) as [c'|] eqn:Hc; split.
    + intros [= ->]. by exists tcfg.
    + intros (? & [= <-] & Hc'). congruence.
    + done.
    + intros (? & [= <-] & Hc'). congruence.
  - split; [done|]. by intros (? & ? & _).
Qed.

Lemma fk_entries_Ok reg rels acc fk :
  Registry.fk_entries reg rels acc = Ok fk →
  (∀ f r, (f, r) ∈ rels →
          returns (Registry.get_target_table_name reg (Registry.target r))) ∧
  (∀ lf tc, dict_get lf fk = Some tc →
            dict_get lf acc = Some tc ∨
            ∃ f r, (f, r) ∈ rels ∧ Registry.local_field r = lf ∧
                   Registry.get_target_table_name reg (Registry.target r)
                   = Ok tc.1 ∧
                   tc.2 = default "id" (Registry.by_ r)) ∧
  (∀ lf, is_Some (dict_get lf acc) → is_Some (dict_get lf fk)) ∧
  (∀ f r, (f, r) ∈ rels → is_Some (dict_get (Registry.local_field r) fk)).
Proof.
  revert acc. induction rels as [|[f r] rels IH]; intros acc Hrun; simpl in Hrun.
  { injection Hrun as <-. split_and!; try done.
    - intros f r Hin. by apply elem_of_nil in Hin.
    - intros lf tc Hget. by left.
    - intros f r Hin. by apply elem_of_nil in Hin. }
  destruct (Registry.get_target_table_name reg (Registry.target r)) as [t|] eqn:Ht;
    [|done].
  simpl in Hrun. apply IH in Hrun as (Hall & Hcontent & Hkeep & Hcover).
  split_and!.
  - intros f' r' Hin. apply elem_of_cons in Hin as [[= -> ->]|Hin].
    + by exists t.
    + by apply (Hall f').
  - intros lf tc Hget. destruct (Hcontent lf tc Hget) as [Hacc|Hrest].
    + destruct (decide (Registry.local_field r = lf)) as [<-|Hne].
      * rewrite dict_get_set_eq in Hacc. injection Hacc as <-. right.
        exists f, r. split_and!; try done. apply list_elem_of_here.
      * rewrite dict_get_set_ne in Hacc by done. by left.
    + destruct Hrest as (f' & r' & Hin & Hrest). right.
      exists f', r'. split; [by apply list_elem_of_further|done].
  - intros lf Hsome. apply Hkeep.
    destruct (decide (Registry.local_field r = lf)) as [<-|Hne].
    + rewrite dict_get_set_eq. eauto.
    + by rewrite dict_get_set_ne.
  - intros f' r' Hin. apply elem_of_cons in Hin as [[= -> ->]|Hin].
    + apply Hkeep. rewrite dict_get_set_eq. eauto.
    + by apply (Hcover f').
Qed.

Lemma fk_entries_returns reg rels acc :
  (∀ f r, (f, r) ∈ rels →
          returns (Registry.get_target_table_name reg (Registry.target r))) →
  returns (Registry.fk_entries reg rels acc).
Proof.
  revert acc. induction rels as [|[f r] rels IH]; intros acc Hall; simpl.
  { by eexists. }
  destruct (Hall f r) as [t ->]; [apply list_elem_of_here|]. simpl.
  apply IH. intros f' r' Hin. by apply (Hall f'), list_elem_of_further.
Qed.

(** X27: the foreign-key map of an entity follows the registry.  It is
    built exactly when the entity is registered and the target of each of
    its relations is registered with a collection (otherwise the call
    raises); it then has an entry for the local field of every relation,
    and each entry names the collection of a relation's target and the
    relation's [by] column, ["id"] when none is given. *)
Theorem fk_map_follows_registry (reg : Registry.registry) (key : string) :
  (returns (Registry.build_fk_map_from_registry reg key) ↔
   ∃ cfg, reg !! key = Some cfg ∧
          ∀ f r, default ∅ (Registry.relations cfg) !! f = Some r →
                 ∃ tcfg c, reg !! Registry.target r = Some tcfg ∧
                           Registry.collection tcfg = Some c) ∧
  (∀ cfg fk_map,
     reg !! key = Some cfg →
     Registry.build_fk_map_from_registry reg key = Ok fk_map →
     (∀ f r, default ∅ (Registry.relations cfg) !! f = Some r →
             is_Some (dict_get (Registry.local_field r) fk_map)) ∧
     (∀ lf t c, dict_get lf fk_map = Some (t, c) →
                ∃ f r tcfg,
                  default ∅ (Registry.relations cfg) !! f = Some r ∧
                  Registry.local_field r = lf ∧
                  reg !! Registry.target r = Some tcfg ∧
                  Registry.collection tcfg = Some t ∧
                  c = default "id" (Registry.by_ r))).
Proof.
  unfold Registry.build_fk_map_from_registry, Registry.get_entity_config.
  split.
  - split.
    + intros [fk_map Hrun]. destruct (reg !! key) as [cfg|] eqn:Hcfg; [|done].
      simpl in Hrun. exists cfg. split; [done|]. intros f r Hr.
      apply fk_entries_Ok in Hrun as (Hall & _).
      destruct (Hall f r) as [t Ht]; [by apply elem_of_map_to_list|].
      apply get_target_table_name_Ok in Ht as (tcfg & Htcfg & Hc). eauto.
    + intros (cfg & -> & Hall). simpl. apply fk_entries_returns.
      intros f r Hin. apply elem_of_map_to_list in Hin.
      destruct (Hall f r Hin) as (tcfg & c & Htcfg & Hc).
      exists c. apply get_target_table_name_Ok. eauto.
  - intros cfg fk_map -> Hrun. simpl in Hrun.
    apply fk_entries_Ok in Hrun as (_ & Hcontent & _ & Hcover). split.
    + intros f r Hr. apply (Hcover f). by apply elem_of_map_to_list.
    + intros lf t c Hget. destruct (Hcontent lf (t, c) Hget) as [Hnil|Hrel];
        [done|].
      destruct Hrel as (f & r & Hin & Hlf & Ht & Hc). simpl in *.
      apply elem_of_map_to_list in Hin.
      apply get_target_table_name_Ok in Ht as (tcfg & Htcfg & Hcol).
      exists f, r, tcfg. done.
Qed.
